(** * elasticsearch_async/helpers.py: the [scan] asynchronous generator

    A shallow embedding of the one function of the module, [scan], and the
    properties of it that the specification states.

    [scan] is an asynchronous generator: it talks to a client object
    (search, scroll, clear_scroll) and hands hits to a consumer, which may
    stop consuming at any yield.  Both are external to the module.  One
    session of the generator is therefore run against a [session]: the
    answers the client gives, in order, and the point at which the consumer
    closes the generator.  The run produces the trace of what the generator
    did (calls, awaits, yields, log records) and the way it ended.

    Responses are taken to be well formed: they have the keys ['hits']['hits']
    and ['_shards'] with integer counts; '_scroll_id' may be absent.  The
    client does not touch the dictionary it is given as body. *)

From stdpp Require Import base strings list gmap pretty.

Module helpers.

(** ** Python values, dictionaries and the object store *)

Definition loc := nat.

(** The values that occur in a query body or stand for a hit.  [VRef] is a
    reference to a dictionary in the store: [dict.copy()] is shallow, so a
    nested dictionary is shared between a query and its copy. *)
Inductive pyval :=
| VNone
| VInt (z : Z)
| VStr (s : string)
| VRef (l : loc).

#[global] Instance pyval_eq_dec : EqDecision pyval.
Proof. solve_decision. Defined.

Abbreviation dict := (gmap string pyval).
Abbreviation heap := (list (gmap string pyval)).

(** A new dictionary object gets the next free address. *)
Definition alloc (h : heap) (d : dict) : heap * loc := (h ++ [d], length h).

(** [obj[k] = v] on the dictionary stored at [l]. *)
Definition setitem (h : heap) (l : loc) (k : string) (v : pyval) : heap :=
  alter (insert k v) l h.

(** Truth value of [query]: [None] and the empty dictionary are false. *)
Definition query_truthy (h : heap) (q : option loc) : bool :=
  match q with
  | None => false
  | Some l =>
      match h !! l with
      | Some d => bool_decide (d ≠ ∅)
      | None => false
      end
  end.

(** [query.copy()]: the contents of the caller's dictionary. *)
Definition contents (h : heap) (q : option loc) : dict :=
  match q with
  | Some l => default ∅ (h !! l)
  | None => ∅
  end.

(** ** Responses, exceptions, requests *)

Record Shards := { total : Z; failed : Z }.

(** [resp.get('_scroll_id')], [resp['hits']['hits']], [resp['_shards']]. *)
Record Response := {
  _scroll_id : option string;
  hits : list pyval;
  _shards : Shards
}.

Inductive exn :=
| TransportError (status : Z)
| CancelledError
| NameError (name : string)
| TypeError (message : string)
| ScanError (scroll_id : string) (message : string)
| GeneratorExit.

#[global] Instance exn_eq_dec : EqDecision exn.
Proof. solve_decision. Defined.

Inductive request :=
| Search (body : option loc) (scroll : string) (size : Z)
         (request_timeout : option Z) (kwargs : list (string * pyval))
| Scroll (scroll_id : string) (scroll : string) (request_timeout : option Z)
| ClearScroll (scroll_ids : list string) (ignore : list Z).

(** What the generator does, in order.  [Call r] is the evaluation of the
    call expression [client.m(...)], [Await r] the [await] applied to its
    value; [Warning] is a [logger.warning] record with its two arguments. *)
Inductive event :=
| Call (r : request)
| Await (r : request)
| Yield (hit : pyval)
| Warning (nfailed ntotal : Z).

(** ** The environment of one session *)

Inductive result (A : Type) :=
| Ok (a : A)
| Err (e : exn).
Arguments Ok {A} a.
Arguments Err {A} e.

(** A call on the client either raises at once or returns an awaitable,
    whose value or exception is only delivered to whoever awaits it. *)
Inductive answer (A : Type) :=
| Raises (e : exn)
| Awaitable (r : result A).
Arguments Raises {A} e.
Arguments Awaitable {A} r.

(** The consumer either iterates to the end, or resumes the generator [n]
    times after a yield and closes it at the next one (it takes [n + 1]
    hits); closing throws [GeneratorExit] into the suspended [yield]. *)
Inductive consumption :=
| Drain
| CloseAfter (n : nat).

(** The answers are those of the call expressions of the source, argument
    binding included: [client_search] is what evaluating
    [client.search(body=query, ..., **kwargs)] comes to, and when the extra
    keyword arguments hold a key [body] of their own that is a [TypeError]
    raised before the client is entered (see [admissible] below). *)
Record session := {
  client_search : answer Response;
  client_scroll : list (answer Response);
  client_clear_scroll : answer unit;
  consumer : consumption
}.

(** ** The arguments of [scan] *)

Record scan_args := {
  query : option loc;
  scroll : string;
  raise_on_error : bool;
  preserve_order : bool;
  size : Z;
  request_timeout : option Z;
  clear_scroll : bool;
  kwargs : list (string * pyval)
}.

(** The defaults of the signature: [scan(client)]. *)
Definition defaults : scan_args := {|
  query := None;
  scroll := "5m";
  raise_on_error := true;
  preserve_order := false;
  size := 1000;
  request_timeout := None;
  clear_scroll := true;
  kwargs := []
|}.

(** The names bound in the module's global namespace when [scan] runs.
    The module binds three: it imports [asyncio] and defines
    [ensure_future] and [scan].  The body of [scan] also reads [logger] and
    [ScanError]; a name that is not bound raises [NameError] where it is
    read. *)
Definition helpers_globals : list string := ["asyncio"; "ensure_future"; "scan"].

(** ** The body of [scan] *)

(** Lines 45-47. *)
Definition prepare_query (h : heap) (a : scan_args) : heap * option loc :=
  if preserve_order a then (h, query a)
  else
    let '(h1, q) :=
      alloc h (if query_truthy h (query a) then contents h (query a) else ∅) in
    (setitem h1 q "sort" (VStr "_doc"), Some q).

(** Lines 65-66, [for hit in resp['hits']['hits']: yield hit].  [None]: the
    consumer closed the generator at a yield. *)
Fixpoint emit_hits (hs : list pyval) (c : consumption)
  : list event * option consumption :=
  match hs with
  | [] => ([], Some c)
  | hit :: rest =>
      match c with
      | CloseAfter 0 => ([Yield hit], None)
      | CloseAfter (S n) =>
          let '(ev, c') := emit_hits rest (CloseAfter n) in (Yield hit :: ev, c')
      | Drain =>
          let '(ev, c') := emit_hits rest Drain in (Yield hit :: ev, c')
      end
  end.

Definition failure_message (nfailed ntotal : Z) : string :=
  "Scroll request has failed on " +:+ pretty nfailed +:+
  " shards out of " +:+ pretty ntotal +:+ ".".

(** Lines 69-79: the log records written and the exception raised, if any. *)
Definition check_shards (G : list string) (a : scan_args) (resp : Response)
    (scroll_id : string) : list event * option exn :=
  let s := _shards resp in
  if bool_decide (failed s ≠ 0%Z) then
    if bool_decide ("logger" ∈ G) then
      ([Warning (failed s) (total s)],
       if raise_on_error a then
         if bool_decide ("ScanError" ∈ G)
         then Some (ScanError scroll_id (failure_message (failed s) (total s)))
         else Some (NameError "ScanError")
       else None)
    else ([], Some (NameError "logger"))
  else ([], None).

(** How control leaves the [try] block.  [Throw e]: an exception raised
    inside the generator, by a call on the client or by lines 69-79;
    [Close]: the consumer closed the generator, which throws [GeneratorExit]
    into the suspended [yield]; [Pending]: the generator asked for a page
    and the session holds no further answer. *)
Inductive exit :=
| Break
| Throw (e : exn)
| Close
| Pending.

#[global] Instance exit_eq_dec : EqDecision exit.
Proof. solve_decision. Defined.

(** After one pass through the loop body: leave the loop with the local
    [scroll_id] as it then is, or go round again. *)
Inductive step :=
| Stop (x : exit) (scroll_id : option string)
| Next (scroll_id : string) (c : consumption).

(** Lines 65-84, for the response [resp] of this pass.  Inside the loop
    [scroll_id] is never [None]: the loop is entered with the identifier of
    the initial response and left at line 84 when a response has none. *)
Definition loop_body (G : list string) (a : scan_args) (resp : Response)
    (scroll_id : string) (c : consumption) : list event * step :=
  let '(ys, oc) := emit_hits (hits resp) c in
  match oc with
  | None => (ys, Stop Close (Some scroll_id))
  | Some c' =>
      let '(ws, oe) := check_shards G a resp scroll_id in
      match oe with
      | Some e => (ys ++ ws, Stop (Throw e) (Some scroll_id))
      | None =>
          match _scroll_id resp with
          | None => (ys ++ ws, Stop Break None)
          | Some sid =>
              match hits resp with
              | [] => (ys ++ ws, Stop Break (Some sid))
              | _ :: _ => (ys ++ ws, Next sid c')
              end
          end
      end
  end.

(** The [try] block as it is left: what was done in it, how it was left and
    the value of the local [scroll_id] at that point. *)
Record attempt := {
  events : list event;
  leaves : exit;
  held : option string
}.

(** The passes with [first_run] false: each begins with line 63,
    [resp = await client.scroll(scroll_id, ...)], answered by the next
    answer of the session. *)
Fixpoint scrolling (G : list string) (a : scan_args) (scroll_id : string)
    (answers : list (answer Response)) (c : consumption) : attempt :=
  match answers with
  | [] => {| events := []; leaves := Pending; held := Some scroll_id |}
  | ans :: rest =>
      let req := Scroll scroll_id (scroll a) (request_timeout a) in
      match ans with
      | Raises e =>
          {| events := [Call req]; leaves := Throw e; held := Some scroll_id |}
      | Awaitable (Err e) =>
          {| events := [Call req; Await req]; leaves := Throw e;
             held := Some scroll_id |}
      | Awaitable (Ok resp) =>
          let '(ev, st) := loop_body G a resp scroll_id c in
          match st with
          | Stop x sid =>
              {| events := Call req :: Await req :: ev; leaves := x; held := sid |}
          | Next sid c' =>
              let r := scrolling G a sid rest c' in
              {| events := Call req :: Await req :: ev ++ events r;
                 leaves := leaves r; held := held r |}
          end
      end
  end.

(** Lines 56-84.  [first_run] is true in the first pass only, which works on
    the initial response; every later pass is one of [scrolling]. *)
Definition try_block (G : list string) (a : scan_args) (resp : Response)
    (scroll_id : string) (env : session) : attempt :=
  let '(ev, st) := loop_body G a resp scroll_id (consumer env) in
  match st with
  | Stop x sid => {| events := ev; leaves := x; held := sid |}
  | Next sid c' =>
      let r := scrolling G a sid (client_scroll env) c' in
      {| events := ev ++ events r; leaves := leaves r; held := held r |}
  end.

(** Truth value of the local [scroll_id]: [None] and [''] are false. *)
Definition id_truthy (sid : option string) : bool :=
  match sid with
  | Some s => bool_decide (s ≠ "")
  | None => false
  end.

(** Lines 85-87.  The value of the call is dropped, not awaited; there is no
    [except] clause, so an exception of the call itself leaves the block. *)
Definition finally_block (a : scan_args) (sid : option string)
    (ans : answer unit) : list event * option exn :=
  match sid with
  | Some s =>
      if id_truthy sid && clear_scroll a then
        ([Call (ClearScroll [s] [404%Z])],
         match ans with
         | Raises e => Some e
         | Awaitable _ => None
         end)
      else ([], None)
  | None => ([], None)
  end.

(** How a session ends for the consumer: the iteration stops, an exception
    reaches it, its close succeeds, or ([Waiting]) the session holds no
    answer for a scroll request. *)
Inductive outcome :=
| Exhausted
| Raised (e : exn)
| Closed
| Waiting.

#[global] Instance outcome_eq_dec : EqDecision outcome.
Proof. solve_decision. Defined.

(** [store]: the dictionaries the caller had and the copy of the query made
    at line 46.  The dictionary literal that line 87 builds for the cleanup
    call is the argument of the [ClearScroll] request of the trace and is
    not kept in the store. *)
Record run := {
  store : heap;
  trace : list event;
  ending : outcome
}.

(** The outcome of [try ... finally].  An exception of the [finally] block
    replaces whatever was under way.  An exception that leaves the generator
    while it is iterated reaches the consumer, [GeneratorExit] like any
    other; while the consumer closes the generator, [GeneratorExit] leaving
    it, the one thrown in or one raised by the cleanup call, ends the close
    normally, and any other exception is raised by the close. *)
Definition conclude (x : exit) (cleanup : option exn) : outcome :=
  match x, cleanup with
  | Close, Some GeneratorExit => Closed
  | _, Some e => Raised e
  | Break, None => Exhausted
  | Throw e, None => Raised e
  | Close, None => Closed
  | Pending, None => Waiting
  end.

Definition scan (G : list string) (h : heap) (a : scan_args) (env : session)
  : run :=
  let '(h1, body) := prepare_query h a in
  let req := Search body (scroll a) (size a) (request_timeout a) (kwargs a) in
  match client_search env with
  | Raises e => {| store := h1; trace := [Call req]; ending := Raised e |}
  | Awaitable (Err e) =>
      {| store := h1; trace := [Call req; Await req]; ending := Raised e |}
  | Awaitable (Ok resp) =>
      match _scroll_id resp with
      | None =>
          {| store := h1; trace := [Call req; Await req]; ending := Exhausted |}
      | Some sid =>
          let t := try_block G a resp sid env in
          match leaves t with
          | Pending =>
              {| store := h1; trace := Call req :: Await req :: events t;
                 ending := Waiting |}
          | x =>
              let '(ev, oe) := finally_block a (held t) (client_clear_scroll env) in
              {| store := h1; trace := Call req :: Await req :: events t ++ ev;
                 ending := conclude x oe |}
          end
      end
  end.

(** ** Reading a trace *)

Definition yields (T : list event) : list pyval :=
  omap (λ e, match e with Yield hit => Some hit | _ => None end) T.

Definition searched (T : list event) : list (option loc) :=
  omap (λ e, match e with Call (Search body _ _ _ _) => Some body | _ => None end) T.

Definition scrolled (T : list event) : list string :=
  omap (λ e, match e with Call (Scroll sid _ _) => Some sid | _ => None end) T.

Definition cleared (T : list event) : list request :=
  omap (λ e, match e with
             | Call (ClearScroll ids ig) => Some (ClearScroll ids ig)
             | _ => None
             end) T.

Definition warnings (T : list event) : list (Z * Z) :=
  omap (λ e, match e with Warning f t => Some (f, t) | _ => None end) T.

(** Events that are no call on the client. *)
Definition quiet (e : event) : Prop :=
  match e with
  | Yield _ | Warning _ _ => True
  | Call _ | Await _ => False
  end.

(** Events of the [try] block: yields, log records and scroll requests. *)
Definition paging (e : event) : Prop :=
  match e with
  | Yield _ | Warning _ _ | Call (Scroll _ _ _) | Await (Scroll _ _ _) => True
  | _ => False
  end.

(** Events that do not concern a clear-scroll request. *)
Definition before_cleanup (e : event) : Prop :=
  match e with
  | Call (ClearScroll _ _) | Await (ClearScroll _ _) => False
  | _ => True
  end.

(** ** Vocabulary of the statements *)

(** The search request of a run. *)
Definition search_request (h : heap) (a : scan_args) : request :=
  Search (prepare_query h a).2 (scroll a) (size a) (request_timeout a) (kwargs a).

(** The exits that cut a pass short, an exception or a close: line 81 has
    not run in that pass. *)
Definition abrupt (x : exit) : Prop :=
  match x with
  | Throw _ | Close => True
  | Break | Pending => False
  end.

(** The response the generator holds after [i] scroll calls: the initial
    one, then the pages of the session in order. *)
Definition nth_response (resp0 : Response) (answers : list (answer Response))
    (i : nat) : option Response :=
  match i with
  | 0 => Some resp0
  | S k =>
      match answers !! k with
      | Some (Awaitable (Ok resp)) => Some resp
      | _ => None
      end
  end.

(** A page after which the loop goes round again (line 83 does not break),
    and a page on which no shard failed. *)
Definition more (resp : Response) : bool :=
  match _scroll_id resp, hits resp with
  | Some _, _ :: _ => true
  | _, _ => false
  end.

Definition healthy (resp : Response) : bool :=
  bool_decide (failed (_shards resp) = 0%Z).

(** The same session with another answer to the clear-scroll call. *)
Definition with_clear_scroll (env : session) (ca : answer unit) : session :=
  {| client_search := client_search env;
     client_scroll := client_scroll env;
     client_clear_scroll := ca;
     consumer := consumer env |}.

(** The clear-scroll call naming [sid], if [sid] is an identifier and is
    not the empty string. *)
Definition call_naming (sid : option string) : list request :=
  match sid with
  | Some s => if bool_decide (s ≠ "") then [ClearScroll [s] [404%Z]] else []
  | None => []
  end.

(** ** Sessions used below *)

Definition ok_shards : Shards := {| total := 5; failed := 0 |}.

(** The scenario of the specification: query [{}], page size 2, pages
    [A, B] with "s1", [C] with "s2" and [] without identifier. *)
Definition page1 : Response :=
  {| _scroll_id := Some "s1"; hits := [VStr "A"; VStr "B"]; _shards := ok_shards |}.
Definition page2 : Response :=
  {| _scroll_id := Some "s2"; hits := [VStr "C"]; _shards := ok_shards |}.
Definition page3 : Response :=
  {| _scroll_id := None; hits := []; _shards := ok_shards |}.

Definition three_pages (ca : answer unit) (c : consumption) : session :=
  {| client_search := Awaitable (Ok page1);
     client_scroll := [Awaitable (Ok page2); Awaitable (Ok page3)];
     client_clear_scroll := ca;
     consumer := c |}.

Definition scenario_args : scan_args := {|
  query := Some 0;
  scroll := "5m";
  raise_on_error := true;
  preserve_order := false;
  size := 2;
  request_timeout := None;
  clear_scroll := true;
  kwargs := []
|}.

(** The caller's store in the scenario: its query [{}] at address 0. *)
Definition scenario_heap : heap := [∅].

(** A first page on which one shard of five failed. *)
Definition failing_page : Response :=
  {| _scroll_id := Some "s1"; hits := [VStr "A"];
     _shards := {| total := 5; failed := 1 |} |}.

Definition failing_session (answers : list (answer Response)) : session :=
  {| client_search := Awaitable (Ok failing_page);
     client_scroll := answers;
     client_clear_scroll := Awaitable (Ok ());
     consumer := Drain |}.

(** An initial response with hits and no scroll identifier. *)
Definition lost_page : Response :=
  {| _scroll_id := None; hits := [VStr "A"; VStr "B"]; _shards := ok_shards |}.

Definition lost_session : session :=
  {| client_search := Awaitable (Ok lost_page);
     client_scroll := [];
     client_clear_scroll := Awaitable (Ok ());
     consumer := Drain |}.

(** A caller whose query [{"query": {"match_all": {}}}] is at address 0. *)
Definition callers_heap : heap :=
  [{["query" := VRef 1]}; {["match_all" := VRef 2]}; ∅].

Definition callers_args : scan_args := {|
  query := Some 0;
  scroll := "5m";
  raise_on_error := true;
  preserve_order := false;
  size := 1000;
  request_timeout := None;
  clear_scroll := true;
  kwargs := []
|}.


(** One page of hits, then an empty response without identifier. *)
Definition short_page : Response :=
  {| _scroll_id := Some "s1"; hits := [VStr "A"]; _shards := ok_shards |}.

Definition short_session : session :=
  {| client_search := Awaitable (Ok short_page);
     client_scroll := [Awaitable (Ok page3)];
     client_clear_scroll := Awaitable (Ok ());
     consumer := Drain |}.

(** ** Vocabulary of the further properties *)

#[global] Instance request_eq_dec : EqDecision request.
Proof. solve_decision. Defined.

(** The pages that scroll calls can get: the answers of the session up to
    the first one that is not a response. *)
Fixpoint delivered (answers : list (answer Response)) : list Response :=
  match answers with
  | Awaitable (Ok resp) :: rest => resp :: delivered rest
  | _ => []
  end.

(** The identifier held after the pages [pages], starting from [sid]. *)
Definition last_id (sid : string) (pages : list Response) : string :=
  foldl (λ s p, default s (_scroll_id p)) sid pages.

(** The log record that lines 70-73 write for a page, if a shard failed. *)
Definition report (resp : Response) : list event :=
  if healthy resp then []
  else [Warning (failed (_shards resp)) (total (_shards resp))].

(** A page that lines 69-79 let pass in the namespace [G]: no shard failed,
    or [logger] is bound and [raise_on_error] is false. *)
Definition tolerated (G : list string) (a : scan_args) (resp : Response) : Prop :=
  healthy resp = true ∨ ("logger" ∈ G ∧ raise_on_error a = false).

(** The failed and total shard counts of the pages on which a shard
    failed, in order. *)
Definition shard_failures (pages : list Response) : list (Z * Z) :=
  omap (λ p, if healthy p then None
             else Some (failed (_shards p), total (_shards p))) pages.

(** Requests that carry the arguments of the call to [scan]: [scroll],
    [size], [request_timeout] and the extra keyword arguments for a search,
    [scroll] and [request_timeout] for a scroll. *)
Definition forwards (a : scan_args) (e : event) : Prop :=
  match e with
  | Call (Search _ sc sz rt kw) | Await (Search _ sc sz rt kw) =>
      sc = scroll a ∧ sz = size a ∧ rt = request_timeout a ∧ kw = kwargs a
  | Call (Scroll _ sc rt) | Await (Scroll _ sc rt) =>
      sc = scroll a ∧ rt = request_timeout a
  | _ => True
  end.

(** The one name that the extra keyword arguments can share with those the
    search call of lines 49-50 passes itself: [scroll], [size] and
    [request_timeout] are parameters of [scan] and never reach [kwargs]. *)
Definition collides (a : scan_args) : bool :=
  bool_decide ("body" ∈ (kwargs a).*1).

(** The sessions that Python's argument binding allows for the arguments
    [a]: with a key [body] among the extra keyword arguments the search call
    raises [TypeError] before the client is entered. *)
Definition admissible (a : scan_args) (env : session) : Prop :=
  collides a = true → ∃ msg, client_search env = Raises (TypeError msg).

(** Requests made one at a time.  A search or scroll call is followed by
    its own [await] and nothing else, unless the call raised, and then only
    the cleanup call may follow; the cleanup call is the last event; nothing
    is awaited that was not just called. *)
Fixpoint in_order (T : list event) : bool :=
  match T with
  | [] => true
  | Call (ClearScroll _ _) :: rest =>
      match rest with
      | [] => true
      | _ :: _ => false
      end
  | Call r :: rest =>
      match rest with
      | [] => true
      | Await r' :: rest' => bool_decide (r = r') && in_order rest'
      | [Call (ClearScroll _ _)] => true
      | _ => false
      end
  | Await _ :: _ => false
  | _ :: rest => in_order rest
  end.



(** A second page on which two shards of five failed. *)
Definition bad_page : Response :=
  {| _scroll_id := Some "s2"; hits := [VStr "C"];
     _shards := {| total := 5; failed := 2 |} |}.

Definition degraded_session : session :=
  {| client_search := Awaitable (Ok page1);
     client_scroll := [Awaitable (Ok bad_page); Awaitable (Ok page3)];
     client_clear_scroll := Awaitable (Ok ());
     consumer := Drain |}.

Definition lenient_args : scan_args := {|
  query := None;
  scroll := "5m";
  raise_on_error := false;
  preserve_order := false;
  size := 1000;
  request_timeout := None;
  clear_scroll := true;
  kwargs := []
|}.

(** A search on an index without documents: an identifier and no hits. *)
Definition empty_page : Response :=
  {| _scroll_id := Some "s0"; hits := []; _shards := ok_shards |}.

Definition empty_session : session :=
  {| client_search := Awaitable (Ok empty_page);
     client_scroll := [];
     client_clear_scroll := Awaitable (Ok ());
     consumer := Drain |}.

Definition ordered_args : scan_args := {|
  query := Some 0;
  scroll := "1m";
  raise_on_error := true;
  preserve_order := true;
  size := 10;
  request_timeout := Some 30%Z;
  clear_scroll := true;
  kwargs := [("index", VStr "orders-*")]
|}.

(** * Properties *)

(** ** Reading a trace *)

Lemma quiet_paging e : quiet e → paging e.
Proof. by destruct e. Qed.

Lemma paging_before_cleanup e : paging e → before_cleanup e.
Proof. by destruct e as [[]|[]| |]. Qed.

Lemma quiet_scrolled ev : Forall quiet ev → scrolled ev = [].
Proof. induction 1 as [|[] ? ? ?]; simpl in *; done. Qed.

Lemma paging_searched ev : Forall paging ev → searched ev = [].
Proof. induction 1 as [|[[]|[]| |] ? ? ?]; simpl in *; done. Qed.

Lemma before_cleanup_cleared ev : Forall before_cleanup ev → cleared ev = [].
Proof. induction 1 as [|[[]|[]| |] ? ? ?]; simpl in *; done. Qed.

Lemma paging_cleared ev : Forall paging ev → cleared ev = [].
Proof.
  intros H. apply before_cleanup_cleared.
  eapply Forall_impl; [done|apply paging_before_cleanup].
Qed.

Lemma yields_fmap hs : yields (Yield <$> hs) = hs.
Proof. induction hs; simpl; [done|]. unfold yields in *. simpl. by f_equal. Qed.

Lemma fmap_Yield_quiet hs : Forall quiet (Yield <$> hs).
Proof. by apply Forall_fmap, Forall_true. Qed.

Lemma scrolled_app ev1 ev2 : scrolled (ev1 ++ ev2) = scrolled ev1 ++ scrolled ev2.
Proof. apply omap_app. Qed.

Lemma cleared_app ev1 ev2 : cleared (ev1 ++ ev2) = cleared ev1 ++ cleared ev2.
Proof. apply omap_app. Qed.

Lemma yields_app ev1 ev2 : yields (ev1 ++ ev2) = yields ev1 ++ yields ev2.
Proof. apply omap_app. Qed.

Lemma searched_app ev1 ev2 : searched (ev1 ++ ev2) = searched ev1 ++ searched ev2.
Proof. apply omap_app. Qed.

Create Rewrite HintDb reading.
#[local] Hint Rewrite scrolled_app cleared_app yields_app searched_app
  yields_fmap @app_nil_r : reading.

Lemma nth_response_S prev resp rest n :
  nth_response prev (Awaitable (Ok resp) :: rest) (S n) = nth_response resp rest n.
Proof. by destruct n. Qed.

Lemma more_scroll_id resp : more resp = true → ∃ s, _scroll_id resp = Some s.
Proof. unfold more. destruct (_scroll_id resp) as [s|]; [by exists s|done]. Qed.

(** ** The query (lines 45-47) *)

Lemma query_copy h q :
  (if query_truthy h q then contents h q else ∅) = contents h q.
Proof.
  destruct q as [l|]; simpl; [|done].
  destruct (h !! l) as [d|]; simpl; [|done].
  case_bool_decide as Hd; [done|]. symmetry. by destruct (decide (d = ∅)).
Qed.

Lemma prepare_query_copy h a :
  preserve_order a = false →
  prepare_query h a
  = (h ++ [<["sort" := VStr "_doc"]> (contents h (query a))], Some (length h)).
Proof.
  intros Hp. unfold prepare_query, alloc, setitem. rewrite Hp, query_copy.
  f_equal. rewrite <- (Nat.add_0_r (length h)) at 1. by rewrite alter_app_r.
Qed.

(** ** The hits of a page (lines 65-66) *)

Lemma emit_hits_quiet hs c : Forall quiet (emit_hits hs c).1.
Proof.
  revert c. induction hs as [|hit rest IH]; intros c; simpl; [constructor|].
  destruct c as [|[|n]]; simpl.
  - specialize (IH Drain). destruct (emit_hits rest Drain); simpl in *.
    by constructor.
  - by repeat constructor.
  - specialize (IH (CloseAfter n)). destruct (emit_hits rest (CloseAfter n)).
    simpl in *. by constructor.
Qed.

Lemma emit_hits_drain hs : emit_hits hs Drain = (Yield <$> hs, Some Drain).
Proof. induction hs as [|hit rest IH]; simpl; [done|]. by rewrite IH. Qed.

(** ** Shard failures (lines 69-79) *)

Lemma check_shards_quiet G a resp sid : Forall quiet (check_shards G a resp sid).1.
Proof.
  unfold check_shards. repeat case_bool_decide; simpl; repeat constructor.
Qed.

Lemma check_shards_healthy G a resp sid :
  healthy resp = true → check_shards G a resp sid = ([], None).
Proof.
  unfold healthy, check_shards. intros H%bool_decide_eq_true.
  by rewrite bool_decide_eq_false_2 by (intros ?; done).
Qed.

(** What lines 69-79 do in a namespace that binds both names they read. *)
Lemma check_shards_bound G a resp sid :
  "logger" ∈ G → "ScanError" ∈ G → failed (_shards resp) ≠ 0%Z →
  check_shards G a resp sid
  = ([Warning (failed (_shards resp)) (total (_shards resp))],
     if raise_on_error a
     then Some (ScanError sid (failure_message (failed (_shards resp))
                                              (total (_shards resp))))
     else None).
Proof.
  intros Hl Hs Hf. unfold check_shards.
  rewrite !bool_decide_eq_true_2 by done. by destruct (raise_on_error a).
Qed.

(** In the namespace of the module the first name read, [logger], is not
    bound: nothing is logged and [NameError] is raised, whatever
    [raise_on_error] is. *)
Lemma check_shards_unbound a resp sid :
  failed (_shards resp) ≠ 0%Z →
  check_shards helpers_globals a resp sid = ([], Some (NameError "logger")).
Proof.
  intros Hf. unfold check_shards. by rewrite bool_decide_eq_true_2 by done.
Qed.

(** ** The loop (lines 56-84) *)

Section loop.
Context (G : list string) (a : scan_args).

Lemma loop_body_quiet resp sid c : Forall quiet (loop_body G a resp sid c).1.
Proof.
  unfold loop_body.
  pose proof (emit_hits_quiet (hits resp) c) as Hy.
  pose proof (check_shards_quiet G a resp sid) as Hw.
  destruct (emit_hits (hits resp) c) as [ys [c'|]]; simpl in *; [|done].
  destruct (check_shards G a resp sid) as [ws [e|]]; simpl in *.
  - by apply Forall_app.
  - destruct (_scroll_id resp); [destruct (hits resp)|]; simpl; by apply Forall_app.
Qed.

Lemma loop_body_next resp sid c ev sid' c' :
  loop_body G a resp sid c = (ev, Next sid' c') →
  _scroll_id resp = Some sid' ∧ more resp = true.
Proof.
  unfold loop_body, more.
  destruct (emit_hits (hits resp) c) as [ys [c1|]]; [|done].
  destruct (check_shards G a resp sid) as [ws [e|]]; [done|].
  destruct (_scroll_id resp); [|done]. destruct (hits resp); [done|].
  by intros [= _ -> _].
Qed.

Lemma loop_body_stop resp sid c ev x s :
  loop_body G a resp sid c = (ev, Stop x s) →
  match x with
  | Throw _ | Close => s = Some sid
  | Break => s = _scroll_id resp ∧ more resp = false
  | Pending => False
  end.
Proof.
  unfold loop_body, more.
  destruct (emit_hits (hits resp) c) as [ys [c1|]]; [|by intros [= _ <- <-]].
  destruct (check_shards G a resp sid) as [ws [e|]]; [by intros [= _ <- <-]|].
  destruct (_scroll_id resp); [|by intros [= _ <- <-]].
  destruct (hits resp); [by intros [= _ <- <-]|done].
Qed.

Lemma loop_body_drain resp sid :
  healthy resp = true →
  loop_body G a resp sid Drain
  = (Yield <$> hits resp,
     match _scroll_id resp with
     | None => Stop Break None
     | Some s => if more resp then Next s Drain else Stop Break (Some s)
     end).
Proof.
  intros Hh. unfold loop_body, more.
  rewrite emit_hits_drain, (check_shards_healthy G a resp sid Hh), app_nil_r.
  destruct (_scroll_id resp); [|done]. by destruct (hits resp).
Qed.

(** One pass of the loop on [resp]: its events [ev] are quiet ([Hq]) and
    it either stops or goes on ([Hb]). *)
Ltac one_pass resp sid c :=
  let Hq := fresh "Hq" in
  pose proof (loop_body_quiet resp sid c) as Hq;
  let ev := fresh "ev" in
  destruct (loop_body G a resp sid c) as [ev [?x ?s'|?sid' ?c']] eqn:Hb;
  simpl in *;
  try rewrite !scrolled_app; try rewrite (quiet_scrolled ev Hq); simpl.

Lemma scrolling_paging sid answers c :
  Forall paging (events (scrolling G a sid answers c)).
Proof.
  revert sid c. induction answers as [|ans rest IH]; intros sid c; simpl.
  { constructor. }
  destruct ans as [e|[resp|e]]; simpl; [by repeat constructor| |by repeat constructor].
  pose proof (loop_body_quiet resp sid c) as Hq.
  destruct (loop_body G a resp sid c) as [ev [x s|s c']]; simpl in *.
  - repeat (constructor; [done|]). eapply Forall_impl; [done|apply quiet_paging].
  - repeat (constructor; [done|]). apply Forall_app. split; [|apply IH].
    eapply Forall_impl; [done|apply quiet_paging].
Qed.

Lemma try_block_paging resp sid env :
  Forall paging (events (try_block G a resp sid env)).
Proof.
  unfold try_block.
  pose proof (loop_body_quiet resp sid (consumer env)) as Hq.
  destruct (loop_body G a resp sid (consumer env)) as [ev [x s|s c']]; simpl in *.
  - eapply Forall_impl; [done|apply quiet_paging].
  - apply Forall_app. split; [|apply scrolling_paging].
    eapply Forall_impl; [done|apply quiet_paging].
Qed.

(** Each scroll call passes the identifier of the response before it. *)
Lemma scrolling_chain answers :
  ∀ prev sid c i s,
    _scroll_id prev = Some sid →
    scrolled (events (scrolling G a sid answers c)) !! i = Some s →
    ∃ resp, nth_response prev answers i = Some resp ∧ _scroll_id resp = Some s.
Proof.
  induction answers as [|ans rest IH]; intros prev sid c i s Hid; simpl; [done|].
  assert (∀ l : list string, l = [] → (sid :: l) !! i = Some s →
            ∃ resp, nth_response prev (ans :: rest) i = Some resp
                    ∧ _scroll_id resp = Some s) as Hone.
  { intros l -> Hi. destruct i as [|i]; [|done].
    injection Hi as <-. by exists prev. }
  destruct ans as [e|[resp|e]]; simpl; [by apply Hone| |by apply Hone].
  one_pass resp sid c.
  - by apply Hone.
  - destruct i as [|i]; simpl.
    + intros [= <-]. by exists prev.
    + intros Hi. apply loop_body_next in Hb as [Hid' _].
      destruct (IH resp sid' c' i s Hid' Hi) as (resp' & Hn & Hs).
      exists resp'. split; [|done].
      by rewrite <- Hn, <- (nth_response_S prev resp rest i).
Qed.

Lemma try_block_chain resp0 sid0 env i s :
  _scroll_id resp0 = Some sid0 →
  scrolled (events (try_block G a resp0 sid0 env)) !! i = Some s →
  ∃ resp, nth_response resp0 (client_scroll env) i = Some resp
          ∧ _scroll_id resp = Some s.
Proof.
  intros Hid. unfold try_block. one_pass resp0 sid0 (consumer env); [done|].
  apply loop_body_next in Hb as [Hid' _]. by apply scrolling_chain.
Qed.

(** When the loop is left by an exception or by a close, [scroll_id] is the
    identifier passed to the last scroll call. *)
Lemma scrolling_abrupt answers :
  ∀ sid c,
    abrupt (leaves (scrolling G a sid answers c)) →
    ∃ s, held (scrolling G a sid answers c) = Some s
         ∧ last (scrolled (events (scrolling G a sid answers c))) = Some s.
Proof.
  induction answers as [|ans rest IH]; intros sid c; simpl; [done|].
  destruct ans as [e'|[resp|e']]; simpl; [by exists sid| |by exists sid].
  one_pass resp sid c.
  - intros Hx. apply loop_body_stop in Hb. exists sid.
    by destruct x; subst.
  - intros Hl. destruct (IH sid' c' Hl) as (s & Hh & Hs).
    exists s. split; [done|]. by rewrite last_cons, Hs.
Qed.

Lemma try_block_abrupt resp0 sid0 env :
  abrupt (leaves (try_block G a resp0 sid0 env)) →
  held (try_block G a resp0 sid0 env)
  = last (sid0 :: scrolled (events (try_block G a resp0 sid0 env))).
Proof.
  unfold try_block. one_pass resp0 sid0 (consumer env).
  - intros Hx. apply loop_body_stop in Hb. by destruct x; subst.
  - intros Hl. destruct (scrolling_abrupt _ sid' c' Hl) as (s & -> & Hs).
    by rewrite last_cons, Hs.
Qed.

Lemma try_block_throw resp0 sid0 env e :
  leaves (try_block G a resp0 sid0 env) = Throw e →
  held (try_block G a resp0 sid0 env)
  = last (sid0 :: scrolled (events (try_block G a resp0 sid0 env))).
Proof. intros Hl. apply try_block_abrupt. by rewrite Hl. Qed.

Lemma try_block_close resp0 sid0 env :
  leaves (try_block G a resp0 sid0 env) = Close →
  held (try_block G a resp0 sid0 env)
  = last (sid0 :: scrolled (events (try_block G a resp0 sid0 env))).
Proof. intros Hl. apply try_block_abrupt. by rewrite Hl. Qed.

(** When the loop is left by [break], [scroll_id] is whatever the last
    response had, and that response has no identifier or no hits. *)
Lemma scrolling_break answers :
  ∀ prev sid c,
    leaves (scrolling G a sid answers c) = Break →
    ∃ resp,
      nth_response prev answers
        (length (scrolled (events (scrolling G a sid answers c)))) = Some resp
      ∧ more resp = false
      ∧ held (scrolling G a sid answers c) = _scroll_id resp.
Proof.
  induction answers as [|ans rest IH]; intros prev sid c; simpl; [done|].
  destruct ans as [e'|[resp|e']]; simpl; [done| |done].
  one_pass resp sid c.
  - intros ->. apply loop_body_stop in Hb as [-> Hm]. by exists resp.
  - intros Hl. destruct (IH resp sid' c' Hl) as (resp' & Hn & Hm & Hh).
    exists resp'. split; [|done].
    rewrite <- Hn. apply (nth_response_S prev resp rest).
Qed.

Lemma try_block_break resp0 sid0 env :
  leaves (try_block G a resp0 sid0 env) = Break →
  ∃ resp,
    nth_response resp0 (client_scroll env)
      (length (scrolled (events (try_block G a resp0 sid0 env)))) = Some resp
    ∧ more resp = false
    ∧ held (try_block G a resp0 sid0 env) = _scroll_id resp.
Proof.
  unfold try_block. one_pass resp0 sid0 (consumer env).
  - intros ->. apply loop_body_stop in Hb as [-> Hm]. by exists resp0.
  - intros Hl. by apply scrolling_break.
Qed.

(** The passes over pages on which no shard failed, for a consumer that
    iterates to the end: all but the last page keep the loop going, the
    last one ends it. *)
Lemma scrolling_pages pages :
  ∀ sid lastp rest,
    Forall (λ p, healthy p = true) (pages ++ [lastp]) →
    Forall (λ p, more p = true) pages →
    more lastp = false →
    let r := scrolling G a sid
               (((λ p, Awaitable (Ok p)) <$> pages ++ [lastp]) ++ rest) Drain in
    yields (events r) = concat (hits <$> pages ++ [lastp])
    ∧ leaves r = Break
    ∧ length (scrolled (events r)) = S (length pages).
Proof.
  induction pages as [|p pages IH]; intros sid lastp rest Hh Hm Hl; simpl.
  - simpl in Hh. rewrite Forall_singleton in Hh.
    rewrite (loop_body_drain lastp sid Hh), Hl, app_nil_r.
    pose proof (quiet_scrolled _ (fmap_Yield_quiet (hits lastp))) as Hq.
    destruct (_scroll_id lastp); simpl; rewrite Hq;
      (split; [apply yields_fmap|done]).
  - simpl in Hh. rewrite Forall_cons in Hh. destruct Hh as [Hp Hh].
    rewrite Forall_cons in Hm. destruct Hm as [Hmp Hm].
    destruct (more_scroll_id p Hmp) as [s Hs].
    rewrite (loop_body_drain p sid Hp), Hs, Hmp. simpl.
    destruct (IH s lastp rest Hh Hm Hl) as (Hy & Hb & Hn).
    split; [|split; [done|]].
    + transitivity (yields ((Yield <$> hits p) ++ events
        (scrolling G a s (((λ p, Awaitable (Ok p)) <$> pages ++ [lastp]) ++ rest)
           Drain))); [done|].
      autorewrite with reading. f_equal. apply Hy.
    + rewrite scrolled_app, (quiet_scrolled _ (fmap_Yield_quiet (hits p))).
      simpl. f_equal. apply Hn.
Qed.

End loop.

(** ** The shape of a run *)

Lemma scan_store G h a env : store (scan G h a env) = (prepare_query h a).1.
Proof.
  unfold scan. destruct (prepare_query h a) as [h1 body]; simpl.
  destruct (client_search env) as [e|[resp|e]]; simpl; try done.
  destruct (_scroll_id resp); simpl; [|done].
  destruct (leaves _); simpl; try done; by destruct (finally_block _ _ _).
Qed.

(** A session that got no response to its search. *)
Lemma scan_not_started G h a env :
  (∀ resp, client_search env ≠ Awaitable (Ok resp)) →
  Forall (λ e, e = Call (search_request h a) ∨ e = Await (search_request h a))
         (trace (scan G h a env)).
Proof.
  intros Hs. unfold scan, search_request.
  destruct (prepare_query h a) as [h1 body]; simpl.
  destruct (client_search env) as [e|[resp|e]]; simpl.
  - repeat constructor.
  - by destruct (Hs resp).
  - repeat constructor; by right.
Qed.

Lemma search_only_paging h a T :
  Forall (λ e, e = Call (search_request h a) ∨ e = Await (search_request h a)) T →
  Forall before_cleanup T ∧ scrolled T = [].
Proof.
  induction 1 as [|? ? [->| ->] ? [IH1 IH2]]; simpl in *; [done|..];
    (split; [by constructor|done]).
Qed.

(** A session whose search response has no scroll identifier. *)
Lemma scan_no_page G h a env resp :
  client_search env = Awaitable (Ok resp) → _scroll_id resp = None →
  trace (scan G h a env) = [Call (search_request h a); Await (search_request h a)]
  ∧ ending (scan G h a env) = Exhausted.
Proof.
  intros Hs Hid. unfold scan, search_request.
  destruct (prepare_query h a) as [h1 body]; simpl. by rewrite Hs, Hid.
Qed.

(** A session that got a scroll identifier: the [try] block, then, unless
    the session is still waiting for a page, the [finally] block. *)
Lemma scan_started G h a env resp sid :
  client_search env = Awaitable (Ok resp) → _scroll_id resp = Some sid →
  let t := try_block G a resp sid env in
  let f := finally_block a (held t) (client_clear_scroll env) in
  trace (scan G h a env)
    = Call (search_request h a) :: Await (search_request h a) :: events t
        ++ (if decide (leaves t = Pending) then [] else f.1)
  ∧ ending (scan G h a env)
    = if decide (leaves t = Pending) then Waiting else conclude (leaves t) f.2.
Proof.
  intros Hs Hid. unfold scan, search_request.
  destruct (prepare_query h a) as [h1 body]; simpl. rewrite Hs, Hid.
  destruct (leaves (try_block G a resp sid env)) eqn:Hl; simpl;
    try (destruct (finally_block _ _ _); simpl; done).
  by rewrite app_nil_r.
Qed.

Lemma finally_block_events a sid ans :
  (finally_block a sid ans).1
  = if clear_scroll a then Call <$> call_naming sid else [].
Proof.
  unfold finally_block, call_naming, id_truthy. destruct sid as [s|]; simpl.
  - by destruct (bool_decide (s ≠ "")), (clear_scroll a).
  - by destruct (clear_scroll a).
Qed.

Lemma finally_block_awaitable a sid res :
  (finally_block a sid (Awaitable res)).2 = None.
Proof. unfold finally_block. destruct sid; [|done]. by destruct (_ && _). Qed.

Lemma call_naming_cases sid :
  call_naming sid = [] ∨ ∃ s, call_naming sid = [ClearScroll [s] [404%Z]].
Proof.
  unfold call_naming. destruct sid as [s|]; [|by left].
  case_bool_decide; [right; by exists s|by left].
Qed.

(** Every trace is a part without clear-scroll events followed by at most
    one event, the call of line 87. *)
Lemma scan_trace_shape G h a env :
  ∃ pre fin,
    trace (scan G h a env) = pre ++ fin
    ∧ Forall before_cleanup pre
    ∧ (fin = [] ∨ ∃ s, fin = [Call (ClearScroll [s] [404%Z])]).
Proof.
  assert ((∀ resp, client_search env ≠ Awaitable (Ok resp)) →
          ∃ pre fin, trace (scan G h a env) = pre ++ fin
                     ∧ Forall before_cleanup pre
                     ∧ (fin = [] ∨ ∃ s, fin = [Call (ClearScroll [s] [404%Z])]))
    as Hnot.
  { intros Hs. exists (trace (scan G h a env)), []. rewrite app_nil_r.
    split; [done|]. split; [|by left].
    by apply (search_only_paging h a), scan_not_started. }
  destruct (client_search env) as [e|[resp|e]] eqn:Hs; [by apply Hnot| |by apply Hnot].
  destruct (_scroll_id resp) as [sid|] eqn:Hid.
  - destruct (scan_started G h a env resp sid Hs Hid) as [-> _].
    set (t := try_block G a resp sid env).
    exists (Call (search_request h a) :: Await (search_request h a) :: events t).
    eexists. split; [done|]. split.
    + repeat (constructor; [done|]).
      eapply Forall_impl; [apply try_block_paging|apply paging_before_cleanup].
    + case_decide; [by left|]. rewrite finally_block_events.
      destruct (clear_scroll a); [|by left].
      destruct (call_naming_cases (held t)) as [->|[s ->]]; [by left|].
      right. by exists s.
  - destruct (scan_no_page G h a env resp Hs Hid) as [-> _].
    eexists _, []. rewrite app_nil_r. split; [done|].
    split; [by repeat constructor|by left].
Qed.

Lemma scan_cleared_at_most_once G h a env :
  length (cleared (trace (scan G h a env))) ≤ 1.
Proof.
  destruct (scan_trace_shape G h a env) as (pre & fin & -> & Hpre & Hfin).
  rewrite cleared_app, (before_cleanup_cleared pre Hpre). simpl.
  destruct Hfin as [->|[s ->]]; simpl; lia.
Qed.

(** A clear-scroll call in a trace is its last event, names one identifier
    and asks to ignore status 404. *)
Lemma scan_clear_scroll_call G h a env ids ig :
  Call (ClearScroll ids ig) ∈ trace (scan G h a env) →
  last (trace (scan G h a env)) = Some (Call (ClearScroll ids ig))
  ∧ length ids = 1 ∧ ig = [404%Z].
Proof.
  destruct (scan_trace_shape G h a env) as (pre & fin & -> & Hpre & Hfin).
  rewrite Forall_forall in Hpre.
  intros [Hin|Hin]%elem_of_app; [by apply Hpre in Hin|].
  destruct Hfin as [->|[s ->]]; [by apply elem_of_nil in Hin|].
  apply list_elem_of_singleton in Hin. rewrite last_snoc.
  by injection Hin as -> ->.
Qed.

Lemma cleared_fmap_Call rs :
  Forall (λ r, match r with ClearScroll _ _ => True | _ => False end) rs →
  cleared (Call <$> rs) = rs.
Proof. induction 1 as [|[] ? ? ? IH]; simpl in *; try done. by f_equal. Qed.

Lemma call_naming_clear sid :
  Forall (λ r, match r with ClearScroll _ _ => True | _ => False end)
         (call_naming sid).
Proof.
  destruct (call_naming_cases sid) as [->|[s ->]]; by repeat constructor.
Qed.

Lemma scan_scrolled G h a env resp0 sid0 :
  client_search env = Awaitable (Ok resp0) → _scroll_id resp0 = Some sid0 →
  scrolled (trace (scan G h a env))
  = scrolled (events (try_block G a resp0 sid0 env)).
Proof.
  intros Hs Hid. destruct (scan_started G h a env resp0 sid0 Hs Hid) as [-> _].
  simpl. rewrite scrolled_app. case_decide; simpl; [by rewrite app_nil_r|].
  rewrite finally_block_events. destruct (clear_scroll a); [|by rewrite app_nil_r].
  destruct (call_naming_cases (held (try_block G a resp0 sid0 env)))
    as [->|[s ->]]; simpl; by rewrite app_nil_r.
Qed.

Lemma scan_cleared G h a env resp0 sid0 :
  client_search env = Awaitable (Ok resp0) → _scroll_id resp0 = Some sid0 →
  cleared (trace (scan G h a env))
  = if decide (leaves (try_block G a resp0 sid0 env) = Pending) then []
    else if clear_scroll a then call_naming (held (try_block G a resp0 sid0 env))
    else [].
Proof.
  intros Hs Hid. destruct (scan_started G h a env resp0 sid0 Hs Hid) as [-> _].
  simpl. rewrite cleared_app.
  rewrite (paging_cleared _ (try_block_paging G a resp0 sid0 env)). simpl.
  case_decide; [done|]. rewrite finally_block_events.
  destruct (clear_scroll a); [|done].
  apply cleared_fmap_Call, call_naming_clear.
Qed.

Lemma scan_cleared_off G h a env :
  clear_scroll a = false → cleared (trace (scan G h a env)) = [].
Proof.
  intros Hc. destruct (client_search env) as [e|[resp|e]] eqn:Hs.
  - apply before_cleanup_cleared, (search_only_paging h a), scan_not_started.
    by rewrite Hs.
  - destruct (_scroll_id resp) as [sid|] eqn:Hid.
    + rewrite (scan_cleared G h a env resp sid Hs Hid).
      case_decide; [done|]. by rewrite Hc.
    + by destruct (scan_no_page G h a env resp Hs Hid) as [-> _].
  - apply before_cleanup_cleared, (search_only_paging h a), scan_not_started.
    by rewrite Hs.
Qed.

Lemma scan_searched G h a env :
  searched (trace (scan G h a env)) = [(prepare_query h a).2].
Proof.
  destruct (client_search env) as [e|[resp|e]] eqn:Hs.
  - unfold scan. destruct (prepare_query h a); simpl. by rewrite Hs.
  - destruct (_scroll_id resp) as [sid|] eqn:Hid.
    + destruct (scan_started G h a env resp sid Hs Hid) as [-> _].
      simpl. f_equal. rewrite searched_app.
      rewrite paging_searched by apply try_block_paging. simpl.
      case_decide; [done|]. rewrite finally_block_events.
      destruct (clear_scroll a); [|done].
      by destruct (call_naming_cases (held (try_block G a resp sid env)))
        as [->|[s ->]].
    + by destruct (scan_no_page G h a env resp Hs Hid) as [-> _].
  - unfold scan. destruct (prepare_query h a); simpl. by rewrite Hs.
Qed.

Lemma yields_finally a sid ans : yields (finally_block a sid ans).1 = [].
Proof.
  rewrite finally_block_events. destruct (clear_scroll a); [|done].
  by destruct (call_naming_cases sid) as [->|[s ->]].
Qed.



(** With [logger] and [ScanError] bound, the session that C2 is checked on
    behaves as the docstring of [scan] says: a warning, then [ScanError]
    with the identifier and the counts when [raise_on_error] is set. *)
Lemma shard_failure_when_bound h a :
  raise_on_error a = true →
  let r := scan ["logger"; "ScanError"] h a (failing_session []) in
  yields (trace r) = [VStr "A"]
  ∧ warnings (trace r) = [(1, 5)%Z]
  ∧ ending r
    = Raised (ScanError "s1" "Scroll request has failed on 1 shards out of 5.").
Proof.
  intros Hr. unfold scan. destruct (prepare_query h a) as [h1 body]; simpl.
  unfold try_block, loop_body, check_shards; simpl. rewrite Hr; simpl.
  unfold finally_block; simpl. by destruct (clear_scroll a).
Qed.



(** A cleanup call that raises [GeneratorExit]: absorbed while the consumer
    closes the generator, raised to a consumer that iterates. *)
Example cleanup_GeneratorExit_closing :
  ending (scan helpers_globals [] defaults
            (three_pages (Raises GeneratorExit) (CloseAfter 0))) = Closed.
Proof. reflexivity. Qed.

Example cleanup_GeneratorExit_iterating :
  ending (scan helpers_globals [] defaults
            (with_clear_scroll empty_session (Raises GeneratorExit)))
  = Raised GeneratorExit.
Proof. reflexivity. Qed.

(** [GeneratorExit] delivered by a scroll request to a consumer that
    iterates is raised to it. *)
Example scroll_GeneratorExit_iterating :
  ending (scan helpers_globals [] defaults
            {| client_search := Awaitable (Ok page1);
               client_scroll := [Awaitable (Err GeneratorExit)];
               client_clear_scroll := Awaitable (Ok ());
               consumer := Drain |})
  = Raised GeneratorExit.
Proof. reflexivity. Qed.

(** * The claims *)

(** C1 as stated fails: with auto-clear enabled (the default) a session
    that ends normally on a response without scroll identifier makes no
    clear-scroll call, although it held "s1" until then. *)
Lemma C1_counterexample :
  let r := scan helpers_globals [] defaults short_session in
  clear_scroll defaults = true
  ∧ yields (trace r) = [VStr "A"]
  ∧ ending r = Exhausted
  ∧ cleared (trace r) = [].
Proof. repeat split; reflexivity. Qed.

(** C1, amended.  When auto-clear is disabled no clear-scroll call is ever
    made, and no session makes more than one.  In a session with auto-clear
    enabled whose initial response carried a scroll identifier: if the
    iteration is aborted by an error or closed by the consumer, the
    clear-scroll calls are exactly one call naming the identifier held at
    that point, which is the one passed to the last scroll call (the initial
    one if there was none), unless that identifier is the empty string; if
    the iteration ends normally, they are exactly one call naming the
    identifier of the terminating response when that response carries a
    non-empty one, and none when it carries none. *)
Theorem C1_clear_scroll_on_exit G h a env :
  let T := trace (scan G h a env) in
  (clear_scroll a = false → cleared T = [])
  ∧ length (cleared T) ≤ 1
  ∧ ∀ resp0 sid0,
      client_search env = Awaitable (Ok resp0) →
      _scroll_id resp0 = Some sid0 →
      clear_scroll a = true →
      let t := try_block G a resp0 sid0 env in
      (∀ e, leaves t = Throw e →
            cleared T = call_naming (last (sid0 :: scrolled T)))
      ∧ (leaves t = Close →
         cleared T = call_naming (last (sid0 :: scrolled T)))
      ∧ (leaves t = Break →
         ∃ resp,
           nth_response resp0 (client_scroll env) (length (scrolled T)) = Some resp
           ∧ more resp = false
           ∧ cleared T = call_naming (_scroll_id resp)).
Proof.
  intros T. subst T. split; [apply scan_cleared_off|].
  split; [apply scan_cleared_at_most_once|].
  intros resp0 sid0 Hs Hid Hc t. subst t.
  rewrite (scan_cleared G h a env resp0 sid0 Hs Hid),
          (scan_scrolled G h a env resp0 sid0 Hs Hid), Hc.
  split; [|split].
  - intros e Hl. rewrite decide_False by (by rewrite Hl).
    by rewrite (try_block_throw G a resp0 sid0 env e Hl).
  - intros Hl. rewrite decide_False by (by rewrite Hl).
    by rewrite (try_block_close G a resp0 sid0 env Hl).
  - intros Hl. rewrite decide_False by (by rewrite Hl).
    destruct (try_block_break G a resp0 sid0 env Hl) as (resp & Hn & Hm & Hh).
    exists resp. by rewrite Hh.
Qed.

(** The consumer takes the three hits of the scenario and closes the
    generator while it is suspended at the third: the second page is in
    hand, [scroll_id] still is "s1". *)
Lemma C1_witness :
  cleared (trace (scan helpers_globals [] defaults
                    (three_pages (Awaitable (Ok ())) (CloseAfter 2))))
  = [ClearScroll ["s1"] [404%Z]].
Proof.
  destruct (C1_clear_scroll_on_exit helpers_globals [] defaults
              (three_pages (Awaitable (Ok ())) (CloseAfter 2))) as (_ & _ & H).
  destruct (H page1 "s1" eq_refl eq_refl eq_refl) as (_ & Hc & _).
  exact (Hc eq_refl).
Defined.

(** C2 (the code does not do what the claim says): a response reporting a
    failed shard.  All hits of the round are emitted, and then line 70 reads
    the global [logger], which the module never binds: no warning is
    recorded, and the session ends with [NameError] instead of [ScanError]
    when [raise_on_error] is set, and instead of going on when it is not. *)
Theorem C2_shard_failure_raises_NameError (h : heap) (a : scan_args)
    (answers : list (answer Response)) :
  let r := scan helpers_globals h a (failing_session answers) in
  yields (trace r) = [VStr "A"]
  ∧ warnings (trace r) = []
  ∧ ending r = Raised (NameError "logger").
Proof.
  unfold scan. destruct (prepare_query h a) as [h1 body]; simpl.
  unfold try_block, loop_body; simpl.
  unfold finally_block; simpl. by destruct (clear_scroll a).
Qed.

(** C3 as stated fails: in the scenario (query [{}], page size 2, pages
    [A, B] with "s1", [C] with "s2", [] without identifier) the sequence is
    [A, B, C] and two scroll calls are made, but no clear-scroll call is made
    at all, so none names "s2". *)
Lemma C3_counterexample :
  let r := scan helpers_globals scenario_heap scenario_args
             (three_pages (Awaitable (Ok ())) Drain) in
  cleared (trace r) = []
  ∧ ¬ (yields (trace r) = [VStr "A"; VStr "B"; VStr "C"]
       ∧ length (scrolled (trace r)) = 2
       ∧ ∃ ig, cleared (trace r) = [ClearScroll ["s2"] ig]).
Proof.
  split; [reflexivity|]. intros (_ & _ & ig & Hc). vm_compute in Hc. discriminate.
Qed.

(** C3, amended: when the terminating response carries no scroll identifier
    the cleanup is skipped.  In the scenario, whatever the other arguments
    of [scan] are, the sequence is [A, B, C], exactly two scroll calls are
    made, with "s1" and then "s2", the iteration ends normally and no
    clear-scroll call is made: line 81 has overwritten [scroll_id] with
    [None] before the [finally] block tests it. *)
Theorem C3_scenario_cleanup_skipped G h a ca :
  let r := scan G h a (three_pages ca Drain) in
  yields (trace r) = [VStr "A"; VStr "B"; VStr "C"]
  ∧ scrolled (trace r) = ["s1"; "s2"]
  ∧ cleared (trace r) = []
  ∧ ending r = Exhausted.
Proof.
  unfold scan. destruct (prepare_query h a) as [h1 body]. simpl. done.
Qed.

(** C4: when the initial search response has no scroll identifier the
    sequence produced is empty, the iteration ends normally and no
    clear-scroll call is made. *)
Theorem C4_no_scroll_id_empty_sequence G h a env resp :
  client_search env = Awaitable (Ok resp) →
  _scroll_id resp = None →
  yields (trace (scan G h a env)) = []
  ∧ cleared (trace (scan G h a env)) = []
  ∧ ending (scan G h a env) = Exhausted.
Proof.
  intros Hs Hid. destruct (scan_no_page G h a env resp Hs Hid) as [-> ->]. done.
Qed.

Lemma C4_witness :
  yields (trace (scan helpers_globals [] defaults lost_session)) = []
  ∧ cleared (trace (scan helpers_globals [] defaults lost_session)) = []
  ∧ ending (scan helpers_globals [] defaults lost_session) = Exhausted.
Proof.
  apply (C4_no_scroll_id_empty_sequence helpers_globals [] defaults lost_session
           lost_page); reflexivity.
Defined.

(** C5: a scan of several pages in which no shard fails and no call on the
    client raises, read to the end: the hits emitted are the hits of the
    initial response followed by those of every scroll response, in the
    order of arrival; every page is fetched by one scroll call, and the
    iteration ends normally. *)
Theorem C5_hits_are_concatenated G h a env resp0 pages lastp rest res :
  client_search env = Awaitable (Ok resp0) →
  client_scroll env = ((λ p, Awaitable (Ok p)) <$> pages ++ [lastp]) ++ rest →
  client_clear_scroll env = Awaitable res →
  consumer env = Drain →
  Forall (λ p, healthy p = true) (resp0 :: pages ++ [lastp]) →
  Forall (λ p, more p = true) (resp0 :: pages) →
  more lastp = false →
  let r := scan G h a env in
  yields (trace r) = concat (hits <$> resp0 :: pages ++ [lastp])
  ∧ length (scrolled (trace r)) = S (length pages)
  ∧ ending r = Exhausted.
Proof.
  intros Hs Hp Hc Hd Hh Hm Hl r. subst r.
  rewrite Forall_cons in Hh, Hm. destruct Hh as [Hh0 Hh], Hm as [Hm0 Hm].
  destruct (more_scroll_id resp0 Hm0) as [sid0 Hid].
  rewrite (scan_scrolled G h a env resp0 sid0 Hs Hid).
  destruct (scan_started G h a env resp0 sid0 Hs Hid) as [-> ->].
  unfold try_block.
  rewrite Hd, Hp, Hc, (loop_body_drain G a resp0 sid0 Hh0), Hid, Hm0.
  destruct (scrolling_pages G a pages sid0 lastp rest Hh Hm Hl) as (Hy & Hb & Hn).
  simpl in *. rewrite Hb. simpl. rewrite finally_block_awaitable.
  split; [|split; [|done]].
  - by rewrite !yields_app, yields_fmap, yields_finally, app_nil_r, Hy.
  - by rewrite scrolled_app, (quiet_scrolled _ (fmap_Yield_quiet (hits resp0))).
Qed.

Lemma C5_witness :
  let r := scan helpers_globals [] defaults (three_pages (Awaitable (Ok ())) Drain) in
  yields (trace r) = concat (hits <$> page1 :: [page2] ++ [page3])
  ∧ length (scrolled (trace r)) = S (length [page2])
  ∧ ending r = Exhausted.
Proof.
  apply (C5_hits_are_concatenated helpers_globals [] defaults
           (three_pages (Awaitable (Ok ())) Drain) page1 [page2] page3 [] (Ok ()));
    try reflexivity.
  - repeat constructor.
  - repeat constructor.
Defined.

(** C6: when [preserve_order] is false the "sort" directive goes into a
    copy and the caller's query is not touched.  Every dictionary the caller
    had is as it was.  The body of the search is a new object, at an address
    the caller's store does not have: it holds the entries of the caller's
    query with "sort" set to "_doc", once, or "sort" alone when no query was
    given.  Every search call of the trace has that object as body, and
    there is exactly one whenever the search call returns. *)
Theorem C6_sort_injected_into_copy G h a env :
  preserve_order a = false →
  let r := scan G h a env in
  let body := length h in
  (∀ l d, h !! l = Some d → store r !! l = Some d)
  ∧ h !! body = None
  ∧ (∀ l d, query a = Some l → h !! l = Some d →
            store r !! body = Some (<["sort" := VStr "_doc"]> d))
  ∧ (query a = None → store r !! body = Some {["sort" := VStr "_doc"]})
  ∧ (∀ b, b ∈ searched (trace r) → b = Some body)
  ∧ (∀ res, client_search env = Awaitable res →
            searched (trace r) = [Some body]).
Proof.
  intros Hp r body. subst r body.
  rewrite scan_store, scan_searched, (prepare_query_copy h a Hp). simpl.
  split; [|split; [|split; [|split; [|split]]]].
  - intros l d Hl. by rewrite lookup_app_l by (by eapply lookup_lt_Some).
  - by apply lookup_ge_None.
  - intros l d Hq Hl. rewrite lookup_app_r by done. rewrite Nat.sub_diag. simpl.
    unfold contents. by rewrite Hq, Hl.
  - intros Hq. rewrite lookup_app_r by done. rewrite Nat.sub_diag. simpl.
    unfold contents. by rewrite Hq, insert_empty.
  - intros b Hb. by apply list_elem_of_singleton in Hb.
  - done.
Qed.

(** The caller's query [{"query": <object 1>}] is at address 0 of a store
    of three objects: the body of the search is the new object 3, which
    holds "query" and "sort". *)
Lemma C6_witness :
  let r := scan helpers_globals callers_heap callers_args
             (three_pages (Awaitable (Ok ())) Drain) in
  store r !! 0 = Some {["query" := VRef 1]}
  ∧ store r !! 3
    = Some (<["sort" := VStr "_doc"]> ({["query" := VRef 1]} : gmap string pyval))
  ∧ searched (trace r) = [Some 3].
Proof.
  destruct (C6_sort_injected_into_copy helpers_globals callers_heap callers_args
              (three_pages (Awaitable (Ok ())) Drain) eq_refl)
    as (Hframe & _ & Hcopy & _ & _ & Hsearch).
  split; [exact (Hframe 0 _ eq_refl)|].
  split; [exact (Hcopy 0 _ eq_refl eq_refl)|].
  exact (Hsearch _ eq_refl).
Defined.



(** C8: the [i]-th scroll call of a session passes the identifier of the
    response the generator got immediately before it: that of the initial
    search response for the first call, that of the page delivered by the
    preceding scroll call for every other.  The session keeps one
    identifier, the local [scroll_id]: it makes at most one clear-scroll
    call and that call names exactly one identifier. *)
Theorem C8_scroll_identifier_chain G h a env :
  let T := trace (scan G h a env) in
  (∀ i s, scrolled T !! i = Some s →
     ∃ resp0 resp,
       client_search env = Awaitable (Ok resp0)
       ∧ nth_response resp0 (client_scroll env) i = Some resp
       ∧ _scroll_id resp = Some s)
  ∧ length (cleared T) ≤ 1
  ∧ (∀ ids ig, Call (ClearScroll ids ig) ∈ T → length ids = 1).
Proof.
  intros T. subst T. split; [|split].
  - intros i s.
    destruct (client_search env) as [e|[resp0|e]] eqn:Hs.
    + rewrite (proj2 (search_only_paging h a _ (scan_not_started G h a env
                 ltac:(by rewrite Hs)))). done.
    + destruct (_scroll_id resp0) as [sid0|] eqn:Hid.
      * rewrite (scan_scrolled G h a env resp0 sid0 Hs Hid). intros Hi.
        destruct (try_block_chain G a resp0 sid0 env i s Hid Hi) as (resp & ? & ?).
        by exists resp0, resp.
      * by destruct (scan_no_page G h a env resp0 Hs Hid) as [-> _].
    + rewrite (proj2 (search_only_paging h a _ (scan_not_started G h a env
                 ltac:(by rewrite Hs)))). done.
  - apply scan_cleared_at_most_once.
  - intros ids ig Hin. by apply scan_clear_scroll_call in Hin as (_ & ? & _).
Qed.

(** C9: hits of an initial response that has no scroll identifier are never
    emitted.  The generator does nothing after the search but return: the
    sequence is empty although the response held hits. *)
Theorem C9_initial_hits_discarded G h a env resp :
  client_search env = Awaitable (Ok resp) →
  _scroll_id resp = None →
  hits resp ≠ [] →
  yields (trace (scan G h a env)) = []
  ∧ yields (trace (scan G h a env)) ≠ hits resp
  ∧ trace (scan G h a env)
    = [Call (search_request h a); Await (search_request h a)]
  ∧ ending (scan G h a env) = Exhausted.
Proof.
  intros Hs Hid Hh. destruct (scan_no_page G h a env resp Hs Hid) as [-> ->].
  repeat split; done.
Qed.

Lemma C9_witness :
  yields (trace (scan helpers_globals [] defaults lost_session)) = []
  ∧ yields (trace (scan helpers_globals [] defaults lost_session)) ≠ hits lost_page
  ∧ trace (scan helpers_globals [] defaults lost_session)
    = [Call (search_request [] defaults); Await (search_request [] defaults)]
  ∧ ending (scan helpers_globals [] defaults lost_session) = Exhausted.
Proof.
  apply (C9_initial_hits_discarded helpers_globals [] defaults lost_session
           lost_page); [reflexivity|reflexivity|discriminate].
Defined.

(** C10: the clear-scroll call is not awaited.  No trace holds an [await]
    of a clear-scroll request, and a clear-scroll call, when there is one,
    is the last thing the generator does: no suspension point, neither an
    [await] nor a [yield], lies between the call and the end of the
    generator, so an operation that only runs while its caller is suspended
    does not run before the generator has finished. *)
Theorem C10_clear_scroll_not_awaited G h a env :
  let T := trace (scan G h a env) in
  (∀ ids ig, Await (ClearScroll ids ig) ∉ T)
  ∧ (∀ ids ig, Call (ClearScroll ids ig) ∈ T →
               last T = Some (Call (ClearScroll ids ig))).
Proof.
  intros T. subst T. split.
  - destruct (scan_trace_shape G h a env) as (pre & fin & -> & Hpre & Hfin).
    rewrite Forall_forall in Hpre.
    intros ids ig [Hin|Hin]%elem_of_app; [by apply Hpre in Hin|].
    destruct Hfin as [->|[s ->]]; [by apply elem_of_nil in Hin|].
    by apply list_elem_of_singleton in Hin.
  - intros ids ig Hin. by apply scan_clear_scroll_call in Hin as (? & _ & _).
Qed.

(** * Further properties of [scan] *)

(** ** What is yielded *)

Lemma emit_hits_close hs :
  ∀ n, emit_hits hs (CloseAfter n)
       = if decide (n < length hs) then (Yield <$> take (S n) hs, None)
         else (Yield <$> hs, Some (CloseAfter (n - length hs))).
Proof.
  induction hs as [|hit rest IH]; intros n.
  - cbn [emit_hits length]. rewrite decide_False by lia. by rewrite Nat.sub_0_r.
  - destruct n as [|n]; cbn [emit_hits length].
    + by rewrite decide_True by lia.
    + rewrite IH. destruct (decide (n < length rest)).
      * by rewrite decide_True by lia.
      * by rewrite decide_False by lia.
Qed.

Lemma emit_hits_yields hs c :
  yields (emit_hits hs c).1 `prefix_of` hs
  ∧ (is_Some (emit_hits hs c).2 → (emit_hits hs c).1 = Yield <$> hs).
Proof.
  destruct c as [|n].
  - rewrite emit_hits_drain. simpl. by rewrite yields_fmap.
  - rewrite emit_hits_close. case_decide; simpl.
    + rewrite yields_fmap. split; [apply prefix_take|]. by intros [? ?].
    + by rewrite yields_fmap.
Qed.

Lemma check_shards_yields G a resp sid : yields (check_shards G a resp sid).1 = [].
Proof. unfold check_shards. by repeat case_bool_decide. Qed.

Lemma loop_body_yields G a resp sid c :
  yields (loop_body G a resp sid c).1 `prefix_of` hits resp
  ∧ match (loop_body G a resp sid c).2 with
    | Next _ _ | Stop Break _ => yields (loop_body G a resp sid c).1 = hits resp
    | _ => True
    end.
Proof.
  unfold loop_body.
  destruct (emit_hits_yields (hits resp) c) as [Hp Hall].
  pose proof (check_shards_yields G a resp sid) as Hw.
  destruct (emit_hits (hits resp) c) as [ys [c'|]]; simpl in *; [|done].
  assert (yields ys = hits resp) as Hy.
  { rewrite Hall by done. apply yields_fmap. }
  destruct (check_shards G a resp sid) as [ws [e|]]; simpl in *.
  - by rewrite yields_app, Hw, app_nil_r.
  - assert (yields (ys ++ ws) = hits resp) as Hyw.
    { by rewrite yields_app, Hw, app_nil_r. }
    destruct (_scroll_id resp); [destruct (hits resp) eqn:Hh|]; simpl;
      by rewrite Hyw.
Qed.

Lemma scrolling_yields_prefix G a answers :
  ∀ sid c,
    yields (events (scrolling G a sid answers c))
    `prefix_of` concat (hits <$> delivered answers).
Proof.
  induction answers as [|ans rest IH]; intros sid c; simpl; [done|].
  destruct ans as [e|[resp|e]]; simpl; [apply prefix_nil| |apply prefix_nil].
  destruct (loop_body_yields G a resp sid c) as [Hp Hall].
  destruct (loop_body G a resp sid c) as [ev [x s|sid' c']]; simpl in *.
  - by apply prefix_app_r.
  - change (yields (ev ++ events (scrolling G a sid' rest c'))
            `prefix_of` hits resp ++ concat (hits <$> delivered rest)).
    rewrite yields_app, Hall. apply prefix_app, IH.
Qed.

(** X5: the hits a session yields are an initial part of the hits of the
    responses it can get, the initial response first and then the pages in
    the order of the scroll calls: nothing is yielded that no response held,
    nothing twice, nothing out of order; and nothing at all when the search
    gave no response. *)
Theorem scan_yields_prefix G h a env :
  yields (trace (scan G h a env))
  `prefix_of` match client_search env with
              | Awaitable (Ok resp0) =>
                  concat (hits <$> resp0 :: delivered (client_scroll env))
              | _ => []
              end.
Proof.
  assert ((∀ resp, client_search env ≠ Awaitable (Ok resp)) →
          yields (trace (scan G h a env)) = []) as Hnot.
  { intros Hs. pose proof (scan_not_started G h a env Hs) as Hf.
    induction Hf as [|? ? [->| ->] ? IH]; done. }
  destruct (client_search env) as [e|[resp0|e]] eqn:Hs;
    [by rewrite Hnot| |by rewrite Hnot].
  destruct (_scroll_id resp0) as [sid0|] eqn:Hid.
  - destruct (scan_started G h a env resp0 sid0 Hs Hid) as [-> _].
    change (yields (events (try_block G a resp0 sid0 env)
                    ++ (if decide (leaves (try_block G a resp0 sid0 env) = Pending)
                        then []
                        else (finally_block a (held (try_block G a resp0 sid0 env))
                                (client_clear_scroll env)).1))
            `prefix_of` concat (hits <$> resp0 :: delivered (client_scroll env))).
    rewrite yields_app.
    replace (yields (if decide (leaves (try_block G a resp0 sid0 env) = Pending)
                     then [] else _)) with (@nil pyval)
      by (case_decide; [done|by rewrite yields_finally]).
    rewrite app_nil_r. unfold try_block. simpl.
    destruct (loop_body_yields G a resp0 sid0 (consumer env)) as [Hp Hall].
    destruct (loop_body G a resp0 sid0 (consumer env)) as [ev [x s|sid' c']];
      simpl in *.
    + by apply prefix_app_r.
    + rewrite yields_app, Hall. apply prefix_app, scrolling_yields_prefix.
  - destruct (scan_no_page G h a env resp0 Hs Hid) as [-> _]. apply prefix_nil.
Qed.

(** ** What is requested *)

Lemma quiet_forwards a e : quiet e → forwards a e.
Proof. by destruct e. Qed.

Lemma scrolling_forwards G a answers :
  ∀ sid c, Forall (forwards a) (events (scrolling G a sid answers c)).
Proof.
  induction answers as [|ans rest IH]; intros sid c; simpl; [constructor|].
  destruct ans as [e|[resp|e]]; simpl; [by repeat constructor| |by repeat constructor].
  pose proof (loop_body_quiet G a resp sid c) as Hq.
  destruct (loop_body G a resp sid c) as [ev [x s|s c']]; simpl in *;
    repeat (constructor; [done|]).
  - eapply Forall_impl; [done|apply quiet_forwards].
  - apply Forall_app. split; [|apply IH].
    eapply Forall_impl; [done|apply quiet_forwards].
Qed.

Lemma try_block_forwards G a resp sid env :
  Forall (forwards a) (events (try_block G a resp sid env)).
Proof.
  unfold try_block.
  pose proof (loop_body_quiet G a resp sid (consumer env)) as Hq.
  destruct (loop_body G a resp sid (consumer env)) as [ev [x s|s c']]; simpl in *.
  - eapply Forall_impl; [done|apply quiet_forwards].
  - apply Forall_app. split; [|apply scrolling_forwards].
    eapply Forall_impl; [done|apply quiet_forwards].
Qed.

Lemma scan_forwards G h a env : Forall (forwards a) (trace (scan G h a env)).
Proof.
  destruct (client_search env) as [e|[resp|e]] eqn:Hs.
  - eapply Forall_impl; [apply scan_not_started; by rewrite Hs|].
    by intros ? [->| ->].
  - destruct (_scroll_id resp) as [sid0|] eqn:Hid.
    + destruct (scan_started G h a env resp sid0 Hs Hid) as [-> _].
      repeat (constructor; [done|]). apply Forall_app.
      split; [apply try_block_forwards|].
      case_decide; [constructor|]. rewrite finally_block_events.
      destruct (clear_scroll a); [|constructor].
      destruct (call_naming_cases (held (try_block G a resp sid0 env)))
        as [->|[s ->]]; by repeat constructor.
    + destruct (scan_no_page G h a env resp Hs Hid) as [-> _].
      by repeat constructor.
  - eapply Forall_impl; [apply scan_not_started; by rewrite Hs|].
    by intros ? [->| ->].
Qed.

(** X2: the arguments are passed on as given.  A search request that the
    generator awaits, which is one that the client accepted, carries the
    [scroll], [size], [request_timeout] and extra keyword arguments of the
    call to [scan]; every scroll call carries the same [scroll] and
    [request_timeout], and nothing else of the arguments. *)
Theorem scan_forwards_arguments G h a env :
  let T := trace (scan G h a env) in
  (∀ b sc sz rt kw, Await (Search b sc sz rt kw) ∈ T →
     sc = scroll a ∧ sz = size a ∧ rt = request_timeout a ∧ kw = kwargs a)
  ∧ (∀ sid sc rt, Call (Scroll sid sc rt) ∈ T →
       sc = scroll a ∧ rt = request_timeout a).
Proof.
  intros T. subst T. pose proof (scan_forwards G h a env) as Hf.
  rewrite Forall_forall in Hf. split.
  - intros b sc sz rt kw Hin. apply (Hf _ Hin).
  - intros sid sc rt Hin. apply (Hf _ Hin).
Qed.

(** A scroll call is only made after a page that has an identifier and
    hits. *)
Lemma scrolling_chain_more G a answers :
  ∀ prev sid c i s,
    more prev = true →
    scrolled (events (scrolling G a sid answers c)) !! i = Some s →
    ∃ resp, nth_response prev answers i = Some resp ∧ more resp = true.
Proof.
  induction answers as [|ans rest IH]; intros prev sid c i s Hm; simpl; [done|].
  assert (∀ l : list string, l = [] → (sid :: l) !! i = Some s →
            ∃ resp, nth_response prev (ans :: rest) i = Some resp
                    ∧ more resp = true) as Hone.
  { intros l -> Hi. destruct i as [|i]; [|done]. by exists prev. }
  destruct ans as [e|[resp|e]]; simpl; [by apply Hone| |by apply Hone].
  pose proof (loop_body_quiet G a resp sid c) as Hq.
  destruct (loop_body G a resp sid c) as [ev [x s'|sid' c']] eqn:Hb; simpl in *.
  - rewrite (quiet_scrolled ev Hq). by apply Hone.
  - rewrite scrolled_app, (quiet_scrolled ev Hq). simpl.
    destruct i as [|i]; simpl; [by exists prev|].
    intros Hi. apply loop_body_next in Hb as [_ Hm'].
    destruct (IH resp sid' c' i s Hm' Hi) as (resp' & Hn & Hs).
    exists resp'. split; [|done].
    by rewrite <- Hn, <- (nth_response_S prev resp rest i).
Qed.

(** X6: the scan does not ask for a page after the end of the scroll.  The
    response received immediately before any scroll call has a scroll
    identifier and at least one hit; in particular no scroll call follows an
    initial response without hits. *)
Theorem scan_scrolls_only_after_hits G h a env i s :
  scrolled (trace (scan G h a env)) !! i = Some s →
  ∃ resp0 resp,
    client_search env = Awaitable (Ok resp0)
    ∧ nth_response resp0 (client_scroll env) i = Some resp
    ∧ more resp = true.
Proof.
  destruct (client_search env) as [e|[resp0|e]] eqn:Hs.
  - rewrite (proj2 (search_only_paging h a _ (scan_not_started G h a env
               ltac:(by rewrite Hs)))). done.
  - destruct (_scroll_id resp0) as [sid0|] eqn:Hid.
    + rewrite (scan_scrolled G h a env resp0 sid0 Hs Hid). unfold try_block.
      pose proof (loop_body_quiet G a resp0 sid0 (consumer env)) as Hq.
      destruct (loop_body G a resp0 sid0 (consumer env))
        as [ev [x s'|sid' c']] eqn:Hb; simpl.
      * by rewrite (quiet_scrolled ev Hq).
      * rewrite scrolled_app, (quiet_scrolled ev Hq). simpl.
        apply loop_body_next in Hb as [_ Hm]. intros Hi.
        destruct (scrolling_chain_more G a _ resp0 sid' c' i s Hm Hi)
          as (resp & ? & ?).
        by exists resp0, resp.
    + by destruct (scan_no_page G h a env resp0 Hs Hid) as [-> _].
  - rewrite (proj2 (search_only_paging h a _ (scan_not_started G h a env
               ltac:(by rewrite Hs)))). done.
Qed.

Lemma scan_scrolls_only_after_hits_witness :
  ∃ resp0 resp,
    client_search (three_pages (Awaitable (Ok ())) Drain) = Awaitable (Ok resp0)
    ∧ nth_response resp0 (client_scroll (three_pages (Awaitable (Ok ())) Drain)) 1
      = Some resp
    ∧ more resp = true.
Proof.
  apply (scan_scrolls_only_after_hits helpers_globals [] defaults
           (three_pages (Awaitable (Ok ())) Drain) 1 "s2").
  reflexivity.
Defined.

(** ** One request at a time *)

Lemma in_order_quiet ev T : Forall quiet ev → in_order (ev ++ T) = in_order T.
Proof. induction 1 as [|[] ? ? ? IH]; simpl in *; done. Qed.

Lemma scrolling_in_order G a answers :
  ∀ sid c fin,
    fin = [] ∨ (∃ s, fin = [Call (ClearScroll [s] [404%Z])]) →
    in_order (events (scrolling G a sid answers c) ++ fin) = true.
Proof.
  induction answers as [|ans rest IH]; intros sid c fin Hfin; simpl.
  { by destruct Hfin as [->|[s ->]]. }
  destruct ans as [e|[resp|e]]; simpl.
  - by destruct Hfin as [->|[s ->]].
  - pose proof (loop_body_quiet G a resp sid c) as Hq.
    destruct (loop_body G a resp sid c) as [ev [x s'|sid' c']]; simpl.
    + rewrite bool_decide_eq_true_2 by done. simpl.
      rewrite (in_order_quiet ev fin Hq). by destruct Hfin as [->|[s ->]].
    + rewrite bool_decide_eq_true_2 by done. simpl.
      rewrite <- app_assoc, (in_order_quiet ev _ Hq). by apply IH.
  - rewrite bool_decide_eq_true_2 by done. by destruct Hfin as [->|[s ->]].
Qed.

(** X7: requests are made one at a time.  In every trace a search or
    scroll call is followed at once by its own [await], unless the call
    itself raised, and then nothing but the cleanup call follows; nothing is
    awaited that was not called just before; and the cleanup call is the
    last event. *)
Theorem scan_in_order G h a env : in_order (trace (scan G h a env)) = true.
Proof.
  destruct (client_search env) as [e|[resp|e]] eqn:Hs.
  - unfold scan. destruct (prepare_query h a); simpl. by rewrite Hs.
  - destruct (_scroll_id resp) as [sid|] eqn:Hid.
    + destruct (scan_started G h a env resp sid Hs Hid) as [-> _].
      unfold search_request. simpl. rewrite bool_decide_eq_true_2 by done. simpl.
      set (fin := if decide _ then _ else _).
      assert (fin = [] ∨ ∃ s, fin = [Call (ClearScroll [s] [404%Z])]) as Hfin.
      { subst fin. case_decide; [by left|]. rewrite finally_block_events.
        destruct (clear_scroll a); [|by left].
        destruct (call_naming_cases (held (try_block G a resp sid env)))
          as [->|[s ->]]; [by left|right; by exists s]. }
      clearbody fin. unfold try_block.
      pose proof (loop_body_quiet G a resp sid (consumer env)) as Hq.
      destruct (loop_body G a resp sid (consumer env)) as [ev [x s'|sid' c']];
        simpl.
      * rewrite (in_order_quiet ev fin Hq). by destruct Hfin as [->|[s ->]].
      * rewrite <- app_assoc, (in_order_quiet ev _ Hq).
        by apply scrolling_in_order.
    + destruct (scan_no_page G h a env resp Hs Hid) as [-> _].
      unfold search_request. simpl. by rewrite bool_decide_eq_true_2 by done.
  - unfold scan. destruct (prepare_query h a); simpl. rewrite Hs. simpl.
    by rewrite bool_decide_eq_true_2 by done.
Qed.

(** ** The store and the search *)

(** X1: [scan] changes no dictionary that the caller holds, whatever its
    arguments.  With [preserve_order] true the body of the search is the
    caller's query itself ([None] when there is none), with the entries it
    had: every search call of the trace has it as body, and there is
    exactly one whenever the search call returns. *)
Theorem scan_leaves_callers_objects G h a env :
  let r := scan G h a env in
  (∀ l d, h !! l = Some d → store r !! l = Some d)
  ∧ (preserve_order a = true →
     (∀ b, b ∈ searched (trace r) → b = query a)
     ∧ (∀ res, client_search env = Awaitable res →
               searched (trace r) = [query a])).
Proof.
  intros r. subst r. rewrite scan_store, scan_searched.
  destruct (preserve_order a) eqn:Hp.
  - unfold prepare_query. rewrite Hp. simpl. split; [done|].
    intros _. split; [|done]. intros b Hb. by apply list_elem_of_singleton in Hb.
  - rewrite (prepare_query_copy h a Hp). simpl. split; [|done].
    intros l d Hl. by rewrite lookup_app_l by (by eapply lookup_lt_Some).
Qed.

(** A caller that asks for its own order: the body of the search is its
    query, object 0, which still holds "query" and nothing else. *)
Lemma scan_leaves_callers_objects_witness :
  let r := scan helpers_globals callers_heap ordered_args
             (three_pages (Awaitable (Ok ())) Drain) in
  store r !! 0 = Some {["query" := VRef 1]}
  ∧ searched (trace r) = [Some 0].
Proof.
  destruct (scan_leaves_callers_objects helpers_globals callers_heap ordered_args
              (three_pages (Awaitable (Ok ())) Drain)) as [Hframe Hsame].
  split; [exact (Hframe 0 _ eq_refl)|].
  destruct (Hsame eq_refl) as [_ Hsearch]. exact (Hsearch _ eq_refl).
Defined.

(** With a key [body] among the extra keyword arguments every admissible
    session ends with the [TypeError] of the search call: the query has been
    copied by then, and nothing else happens. *)
Lemma scan_colliding_kwargs G h a env :
  collides a = true → admissible a env →
  ∃ msg, ending (scan G h a env) = Raised (TypeError msg)
         ∧ yields (trace (scan G h a env)) = []
         ∧ scrolled (trace (scan G h a env)) = []
         ∧ cleared (trace (scan G h a env)) = [].
Proof.
  intros Hk Hadm. destruct (Hadm Hk) as [msg Hs]. exists msg.
  unfold scan. destruct (prepare_query h a) as [h1 body]. by rewrite Hs.
Qed.



(** ** Sessions that go through several pages *)

Lemma warnings_app ev1 ev2 : warnings (ev1 ++ ev2) = warnings ev1 ++ warnings ev2.
Proof. apply omap_app. Qed.

Lemma warnings_fmap_Yield hs : warnings (Yield <$> hs) = [].
Proof. by induction hs. Qed.

Lemma yields_report resp : yields (report resp) = [].
Proof. unfold report. by destruct (healthy resp). Qed.

Lemma report_quiet resp : Forall quiet (report resp).
Proof. unfold report. destruct (healthy resp); by repeat constructor. Qed.

Lemma warnings_finally a sid ans : warnings (finally_block a sid ans).1 = [].
Proof.
  rewrite finally_block_events. destruct (clear_scroll a); [|done].
  by destruct (call_naming_cases sid) as [->|[s ->]].
Qed.

Lemma last_id_more sid pages p :
  more p = true → ∃ s, _scroll_id p = Some s ∧ last_id sid (p :: pages) = last_id s pages.
Proof.
  intros [s Hs]%more_scroll_id. exists s. split; [done|].
  unfold last_id. simpl. by rewrite Hs.
Qed.

Section through.
Context (G : list string) (a : scan_args).

Lemma check_shards_tolerated resp sid :
  tolerated G a resp → check_shards G a resp sid = (report resp, None).
Proof.
  unfold report. intros [Hh|[Hl Hr]].
  - by rewrite Hh, (check_shards_healthy G a resp sid Hh).
  - destruct (healthy resp) eqn:Hh; [by apply check_shards_healthy|].
    unfold healthy in Hh. apply bool_decide_eq_false in Hh.
    unfold check_shards.
    by rewrite (bool_decide_eq_true_2 _ Hh), (bool_decide_eq_true_2 _ Hl), Hr.
Qed.

Lemma loop_body_tolerated resp sid :
  tolerated G a resp →
  loop_body G a resp sid Drain
  = ((Yield <$> hits resp) ++ report resp,
     match _scroll_id resp with
     | None => Stop Break None
     | Some s => if more resp then Next s Drain else Stop Break (Some s)
     end).
Proof.
  intros Ht. unfold loop_body, more.
  rewrite emit_hits_drain, (check_shards_tolerated resp sid Ht).
  destruct (_scroll_id resp); [|done]. by destruct (hits resp).
Qed.

(** The passes over pages that all keep the loop going, for a consumer that
    iterates to the end: their events, and then the passes over what
    follows, begun with the identifier of the last of them. *)
Lemma scrolling_through pages :
  ∀ sid rest,
    Forall (tolerated G a) pages →
    Forall (λ p, more p = true) pages →
    let r := scrolling G a sid (((λ p, Awaitable (Ok p)) <$> pages) ++ rest) Drain in
    let r' := scrolling G a (last_id sid pages) rest Drain in
    ∃ E, events r = E ++ events r'
         ∧ leaves r = leaves r' ∧ held r = held r'
         ∧ yields E = concat (hits <$> pages)
         ∧ warnings E = warnings (pages ≫= report)
         ∧ length (scrolled E) = length pages.
Proof.
  induction pages as [|p pages IH]; intros sid rest Ht Hm.
  { by exists []. }
  rewrite Forall_cons in Ht, Hm. destruct Ht as [Htp Ht], Hm as [Hmp Hm].
  destruct (last_id_more sid pages p Hmp) as (s & Hs & ->).
  destruct (IH s rest Ht Hm) as (E & HE & Hl & Hh & Hy & Hw & Hn).
  simpl. rewrite (loop_body_tolerated p sid Htp), Hs, Hmp. simpl.
  change (list_fmap Response (answer Response) (λ p0, Awaitable (Ok p0)) pages)
    with ((λ p0, Awaitable (Ok p0)) <$> pages).
  exists (Call (Scroll sid (scroll a) (request_timeout a))
          :: Await (Scroll sid (scroll a) (request_timeout a))
          :: ((Yield <$> hits p) ++ report p) ++ E).
  rewrite HE. split; [simpl; by rewrite <- !app_assoc|]. do 2 (split; [done|]).
  split; [|split].
  - change (yields (((Yield <$> hits p) ++ report p) ++ E)
            = hits p ++ concat (hits <$> pages)).
    by rewrite !yields_app, yields_fmap, yields_report, app_nil_r, Hy.
  - change (warnings (((Yield <$> hits p) ++ report p) ++ E)
            = warnings (report p ++ (pages ≫= report))).
    by rewrite !warnings_app, warnings_fmap_Yield, Hw.
  - change (S (length (scrolled (((Yield <$> hits p) ++ report p) ++ E)))
            = S (length pages)).
    rewrite scrolled_app, (quiet_scrolled ((Yield <$> hits p) ++ report p)).
    + simpl. by rewrite Hn.
    + apply Forall_app. split; [apply fmap_Yield_quiet|apply report_quiet].
Qed.

End through.

(** A session whose initial response and first pages all keep the loop
    going: what it yields, logs and clears, and how it ends, in terms of the
    passes over the rest of the answers. *)
Lemma scan_through G h a env resp0 sid0 pages rest :
  client_search env = Awaitable (Ok resp0) →
  _scroll_id resp0 = Some sid0 →
  client_scroll env = ((λ p, Awaitable (Ok p)) <$> pages) ++ rest →
  consumer env = Drain →
  Forall (tolerated G a) (resp0 :: pages) →
  Forall (λ p, more p = true) (resp0 :: pages) →
  let r' := scrolling G a (last_id sid0 pages) rest Drain in
  leaves r' ≠ Pending →
  yields (trace (scan G h a env))
    = concat (hits <$> resp0 :: pages) ++ yields (events r')
  ∧ warnings (trace (scan G h a env))
    = warnings ((resp0 :: pages) ≫= report) ++ warnings (events r')
  ∧ length (scrolled (trace (scan G h a env)))
    = length pages + length (scrolled (events r'))
  ∧ cleared (trace (scan G h a env))
    = (if clear_scroll a then call_naming (held r') else [])
  ∧ ending (scan G h a env)
    = conclude (leaves r') (finally_block a (held r') (client_clear_scroll env)).2.
Proof.
  intros Hs Hid Hp Hd Ht Hm r' Hpend.
  rewrite Forall_cons in Ht, Hm. destruct Ht as [Ht0 Ht], Hm as [Hm0 Hm].
  destruct (scrolling_through G a pages sid0 rest Ht Hm)
    as (E & HE & Hl & Hh & Hy & Hw & Hn).
  assert (events (try_block G a resp0 sid0 env)
          = ((Yield <$> hits resp0) ++ report resp0) ++ E ++ events r'
          ∧ leaves (try_block G a resp0 sid0 env) = leaves r'
          ∧ held (try_block G a resp0 sid0 env) = held r') as (Hev & Hlv & Hhd).
  { unfold try_block.
    rewrite Hd, Hp, (loop_body_tolerated G a resp0 sid0 Ht0), Hid, Hm0. simpl.
    by rewrite HE, Hl, Hh. }
  rewrite (scan_cleared G h a env resp0 sid0 Hs Hid),
          (scan_scrolled G h a env resp0 sid0 Hs Hid).
  destruct (scan_started G h a env resp0 sid0 Hs Hid) as [-> ->].
  rewrite Hev, Hlv, Hhd. rewrite !decide_False by done.
  split; [|split; [|split; [|done]]].
  - change (yields ((((Yield <$> hits resp0) ++ report resp0) ++ E ++ events r')
                    ++ (finally_block a (held r') (client_clear_scroll env)).1)
            = (hits resp0 ++ concat (hits <$> pages)) ++ yields (events r')).
    rewrite !yields_app, yields_fmap, yields_report, yields_finally, Hy.
    by rewrite !app_nil_r, app_assoc.
  - change (warnings ((((Yield <$> hits resp0) ++ report resp0) ++ E ++ events r')
                      ++ (finally_block a (held r') (client_clear_scroll env)).1)
            = warnings (report resp0 ++ (pages ≫= report)) ++ warnings (events r')).
    rewrite !warnings_app, warnings_fmap_Yield, warnings_finally, Hw.
    simpl. by rewrite !app_nil_r, app_assoc.
  - rewrite !scrolled_app, (quiet_scrolled _ (fmap_Yield_quiet (hits resp0))),
            (quiet_scrolled _ (report_quiet resp0)).
    simpl. by rewrite length_app, Hn.
Qed.

Lemma healthy_tolerated G a pages :
  Forall (λ p, healthy p = true) pages → Forall (tolerated G a) pages.
Proof. intros H. eapply Forall_impl; [done|]. intros p Hp. by left. Qed.

Lemma healthy_report pages :
  Forall (λ p, healthy p = true) pages → warnings (pages ≫= report) = [].
Proof.
  induction 1 as [|p pages Hp _ IH]; [done|].
  change (warnings (report p ++ (pages ≫= report)) = []).
  rewrite warnings_app, IH. unfold report. by rewrite Hp.
Qed.

Lemma warnings_report pages : warnings (pages ≫= report) = shard_failures pages.
Proof.
  induction pages as [|p pages IH]; [done|].
  change (warnings (report p ++ (pages ≫= report)) = shard_failures (p :: pages)).
  rewrite warnings_app, IH. unfold report, shard_failures. simpl.
  by destruct (healthy p).
Qed.

Lemma concat_hits_snoc (resp0 : Response) pages bad :
  concat (hits <$> resp0 :: pages ++ [bad])
  = concat (hits <$> resp0 :: pages) ++ hits bad.
Proof.
  rewrite !fmap_cons, fmap_app, !concat_cons, concat_app. simpl.
  by rewrite app_nil_r, app_assoc.
Qed.

(** A pass that lines 69-79 end with an exception, for a consumer that
    iterates to the end: the hits of the page have all been yielded and
    [scroll_id] still is the identifier the pass began with. *)
Lemma loop_body_raises G a resp sid ws e :
  check_shards G a resp sid = (ws, Some e) →
  loop_body G a resp sid Drain
  = ((Yield <$> hits resp) ++ ws, Stop (Throw e) (Some sid)).
Proof. intros Hc. unfold loop_body. by rewrite emit_hits_drain, Hc. Qed.



(** X8: in the module as it is, a page of a later round that reports
    failed shards ends the session with [NameError] for [logger], whatever
    [raise_on_error] is: the hits of all pages up to and including that one
    have been yielded, nothing has been logged, and with auto-clear enabled
    the cleanup names the identifier the page was requested with. *)
Theorem scan_failed_shards_unbound h a env resp0 sid0 pages bad rest res :
  client_search env = Awaitable (Ok resp0) →
  _scroll_id resp0 = Some sid0 →
  client_scroll env
    = ((λ p, Awaitable (Ok p)) <$> pages) ++ Awaitable (Ok bad) :: rest →
  failed (_shards bad) ≠ 0%Z →
  client_clear_scroll env = Awaitable res →
  consumer env = Drain →
  Forall (λ p, healthy p = true) (resp0 :: pages) →
  Forall (λ p, more p = true) (resp0 :: pages) →
  let r := scan helpers_globals h a env in
  yields (trace r) = concat (hits <$> resp0 :: pages ++ [bad])
  ∧ warnings (trace r) = []
  ∧ cleared (trace r)
    = (if clear_scroll a then call_naming (Some (last_id sid0 pages)) else [])
  ∧ ending r = Raised (NameError "logger").
Proof.
  intros Hs Hid Hp Hf Hc Hd Hh Hm r. subst r.
  pose proof (loop_body_raises helpers_globals a bad (last_id sid0 pages) _ _
                (check_shards_unbound a bad (last_id sid0 pages) Hf)) as Hb.
  destruct (scan_through helpers_globals h a env resp0 sid0 pages
              (Awaitable (Ok bad) :: rest)
              Hs Hid Hp Hd (healthy_tolerated _ a _ Hh) Hm)
    as (Hy & Hw & _ & Hcl & He').
  { simpl. by rewrite Hb. }
  rewrite concat_hits_snoc, Hy, Hw, Hcl, He', Hc, finally_block_awaitable,
          (healthy_report _ Hh).
  simpl. rewrite Hb. simpl.
  rewrite yields_app, warnings_app, yields_fmap, warnings_fmap_Yield. simpl.
  by rewrite app_nil_r.
Qed.

Lemma scan_failed_shards_unbound_witness :
  let r := scan helpers_globals [] lenient_args degraded_session in
  yields (trace r) = concat (hits <$> page1 :: [] ++ [bad_page])
  ∧ warnings (trace r) = []
  ∧ cleared (trace r)
    = (if clear_scroll lenient_args then call_naming (Some (last_id "s1" []))
       else [])
  ∧ ending r = Raised (NameError "logger").
Proof.
  apply (scan_failed_shards_unbound [] lenient_args degraded_session
           page1 "s1" [] bad_page [Awaitable (Ok page3)] (Ok ()));
    try reflexivity.
  - discriminate.
  - repeat constructor.
  - repeat constructor.
Defined.

(** X9: with [logger] and [ScanError] bound in the namespace and
    [raise_on_error] true, a page of a later round that reports failed
    shards ends the session with [ScanError] after its hits have been
    yielded and one warning has been logged.  The identifier the error
    carries is the one the page was requested with, not the one the page
    itself returned: line 81 has not run yet. *)
Theorem scan_failed_shards_strict G h a env resp0 sid0 pages bad rest res :
  "logger" ∈ G → "ScanError" ∈ G →
  raise_on_error a = true →
  client_search env = Awaitable (Ok resp0) →
  _scroll_id resp0 = Some sid0 →
  client_scroll env
    = ((λ p, Awaitable (Ok p)) <$> pages) ++ Awaitable (Ok bad) :: rest →
  failed (_shards bad) ≠ 0%Z →
  client_clear_scroll env = Awaitable res →
  consumer env = Drain →
  Forall (λ p, healthy p = true) (resp0 :: pages) →
  Forall (λ p, more p = true) (resp0 :: pages) →
  let r := scan G h a env in
  yields (trace r) = concat (hits <$> resp0 :: pages ++ [bad])
  ∧ warnings (trace r) = [(failed (_shards bad), total (_shards bad))]
  ∧ ending r
    = Raised (ScanError (last_id sid0 pages)
                (failure_message (failed (_shards bad)) (total (_shards bad)))).
Proof.
  intros Hlog Hse Hr Hs Hid Hp Hf Hc Hd Hh Hm r. subst r.
  pose proof (check_shards_bound G a bad (last_id sid0 pages) Hlog Hse Hf) as Hcs.
  rewrite Hr in Hcs.
  pose proof (loop_body_raises G a bad (last_id sid0 pages) _ _ Hcs) as Hb.
  destruct (scan_through G h a env resp0 sid0 pages (Awaitable (Ok bad) :: rest)
              Hs Hid Hp Hd (healthy_tolerated _ a _ Hh) Hm)
    as (Hy & Hw & _ & _ & He').
  { simpl. by rewrite Hb. }
  rewrite concat_hits_snoc, Hy, Hw, He', Hc, finally_block_awaitable,
          (healthy_report _ Hh).
  simpl. rewrite Hb. simpl.
  rewrite yields_app, warnings_app, yields_fmap, warnings_fmap_Yield. simpl.
  by rewrite app_nil_r.
Qed.

Lemma scan_failed_shards_strict_witness :
  let r := scan ["logger"; "ScanError"] [] defaults degraded_session in
  yields (trace r) = concat (hits <$> page1 :: [] ++ [bad_page])
  ∧ warnings (trace r) = [(failed (_shards bad_page), total (_shards bad_page))]
  ∧ ending r
    = Raised (ScanError (last_id "s1" [])
                (failure_message (failed (_shards bad_page))
                                 (total (_shards bad_page)))).
Proof.
  apply (scan_failed_shards_strict ["logger"; "ScanError"] [] defaults
           degraded_session page1 "s1" [] bad_page [Awaitable (Ok page3)] (Ok ()));
    try reflexivity.
  - repeat constructor.
  - repeat constructor.
  - discriminate.
  - repeat constructor.
  - repeat constructor.
Defined.

Lemma shard_failures_snoc pages p :
  shard_failures (pages ++ [p]) = shard_failures pages ++ warnings (report p).
Proof.
  unfold shard_failures, report. rewrite omap_app. simpl. by destruct (healthy p).
Qed.

(** X10: with [logger] bound in the namespace and [raise_on_error] false,
    failed shards do not end the scan.  A session read to the end yields the
    hits of the initial response and of every page, in order, whether shards
    failed on them or not, logs one warning with the failed and total counts
    for each response on which a shard failed, and ends normally. *)
Theorem scan_failed_shards_lenient G h a env resp0 sid0 pages lastp rest res :
  "logger" ∈ G →
  raise_on_error a = false →
  client_search env = Awaitable (Ok resp0) →
  _scroll_id resp0 = Some sid0 →
  client_scroll env
    = ((λ p, Awaitable (Ok p)) <$> pages) ++ Awaitable (Ok lastp) :: rest →
  client_clear_scroll env = Awaitable res →
  consumer env = Drain →
  Forall (λ p, more p = true) (resp0 :: pages) →
  more lastp = false →
  let r := scan G h a env in
  yields (trace r) = concat (hits <$> resp0 :: pages ++ [lastp])
  ∧ warnings (trace r) = shard_failures (resp0 :: pages ++ [lastp])
  ∧ length (scrolled (trace r)) = S (length pages)
  ∧ ending r = Exhausted.
Proof.
  intros Hlog Hr Hs Hid Hp Hc Hd Hm Hl r. subst r.
  assert (∀ p, tolerated G a p) as Htol by (intros p; by right).
  pose proof (loop_body_tolerated G a lastp (last_id sid0 pages) (Htol lastp)) as Hb.
  rewrite Hl in Hb.
  assert (loop_body G a lastp (last_id sid0 pages) Drain
          = ((Yield <$> hits lastp) ++ report lastp, Stop Break (_scroll_id lastp)))
    as Hb' by (rewrite Hb; by destruct (_scroll_id lastp)).
  destruct (scan_through G h a env resp0 sid0 pages (Awaitable (Ok lastp) :: rest)
              Hs Hid Hp Hd (Forall_true _ _ Htol) Hm)
    as (Hy & Hw & Hn & _ & He').
  { simpl. by rewrite Hb'. }
  rewrite concat_hits_snoc, Hy, Hw, Hn, He', Hc, finally_block_awaitable.
  rewrite warnings_report, (app_comm_cons pages [lastp] resp0), shard_failures_snoc.
  simpl. rewrite Hb'. simpl.
  rewrite yields_app, warnings_app, yields_fmap, warnings_fmap_Yield, yields_report.
  rewrite scrolled_app, (quiet_scrolled _ (fmap_Yield_quiet (hits lastp))),
          (quiet_scrolled _ (report_quiet lastp)).
  simpl. rewrite app_nil_r. repeat split; try done. lia.
Qed.

Lemma scan_failed_shards_lenient_witness :
  let r := scan ["logger"] [] lenient_args degraded_session in
  yields (trace r) = concat (hits <$> page1 :: [bad_page] ++ [page3])
  ∧ warnings (trace r) = shard_failures (page1 :: [bad_page] ++ [page3])
  ∧ length (scrolled (trace r)) = S (length [bad_page])
  ∧ ending r = Exhausted.
Proof.
  apply (scan_failed_shards_lenient ["logger"] [] lenient_args degraded_session
           page1 "s1" [bad_page] page3 [] (Ok ())); try reflexivity.
  - repeat constructor.
  - repeat constructor.
Defined.

(** ** Sessions that end in the first pass *)

Lemma yields_request r r' T : yields (Call r :: Await r' :: T) = yields T.
Proof. done. Qed.

Lemma warnings_request r r' T : warnings (Call r :: Await r' :: T) = warnings T.
Proof. done. Qed.

(** X11: a consumer that stops within the hits of the initial response
    gets exactly the hits it took; no scroll request is made, with
    auto-clear enabled the cleanup names the identifier of the initial
    response, and the close succeeds.  Shard failures reported by that
    response go unnoticed: the check comes after the hits. *)
Theorem scan_closed_in_first_page G h a env resp0 sid0 n res :
  client_search env = Awaitable (Ok resp0) →
  _scroll_id resp0 = Some sid0 →
  consumer env = CloseAfter n →
  n < length (hits resp0) →
  client_clear_scroll env = Awaitable res →
  let r := scan G h a env in
  yields (trace r) = take (S n) (hits resp0)
  ∧ scrolled (trace r) = []
  ∧ warnings (trace r) = []
  ∧ cleared (trace r) = (if clear_scroll a then call_naming (Some sid0) else [])
  ∧ ending r = Closed.
Proof.
  intros Hs Hid Hd Hn Hc r. subst r.
  assert (try_block G a resp0 sid0 env
          = {| events := Yield <$> take (S n) (hits resp0);
               leaves := Close; held := Some sid0 |}) as Ht.
  { unfold try_block, loop_body.
    by rewrite Hd, emit_hits_close, decide_True by done. }
  rewrite (scan_cleared G h a env resp0 sid0 Hs Hid),
          (scan_scrolled G h a env resp0 sid0 Hs Hid).
  destruct (scan_started G h a env resp0 sid0 Hs Hid) as [-> ->].
  rewrite Ht, Hc, finally_block_awaitable. cbn [events leaves held].
  rewrite !decide_False by done.
  rewrite yields_request, warnings_request, (quiet_scrolled _ (fmap_Yield_quiet _)).
  rewrite yields_app, warnings_app, yields_fmap, warnings_fmap_Yield,
          yields_finally, warnings_finally.
  by rewrite app_nil_r.
Qed.

Lemma scan_closed_in_first_page_witness :
  let r := scan helpers_globals [] defaults
             (three_pages (Awaitable (Ok ())) (CloseAfter 0)) in
  yields (trace r) = take 1 (hits page1)
  ∧ scrolled (trace r) = []
  ∧ warnings (trace r) = []
  ∧ cleared (trace r)
    = (if clear_scroll defaults then call_naming (Some "s1") else [])
  ∧ ending r = Closed.
Proof.
  apply (scan_closed_in_first_page helpers_globals [] defaults
           (three_pages (Awaitable (Ok ())) (CloseAfter 0)) page1 "s1" 0 (Ok ()));
    try reflexivity.
  simpl. lia.
Defined.

(** X12: a search that returns a scroll identifier and no hits, with no
    failed shard (an index without matching documents): nothing is yielded,
    no scroll request is made, the iteration ends normally, and with
    auto-clear enabled the identifier of the response is cleared. *)
Theorem scan_empty_result G h a env resp0 sid0 res :
  client_search env = Awaitable (Ok resp0) →
  _scroll_id resp0 = Some sid0 →
  hits resp0 = [] →
  healthy resp0 = true →
  client_clear_scroll env = Awaitable res →
  let r := scan G h a env in
  yields (trace r) = []
  ∧ scrolled (trace r) = []
  ∧ cleared (trace r) = (if clear_scroll a then call_naming (Some sid0) else [])
  ∧ ending r = Exhausted.
Proof.
  intros Hs Hid Hh Hok Hc r. subst r.
  assert (try_block G a resp0 sid0 env
          = {| events := []; leaves := Break; held := Some sid0 |}) as Ht.
  { unfold try_block, loop_body. rewrite Hh. cbn [emit_hits].
    by rewrite (check_shards_healthy G a resp0 sid0 Hok), Hid. }
  rewrite (scan_cleared G h a env resp0 sid0 Hs Hid),
          (scan_scrolled G h a env resp0 sid0 Hs Hid).
  destruct (scan_started G h a env resp0 sid0 Hs Hid) as [-> ->].
  rewrite Ht, Hc, finally_block_awaitable. cbn [events leaves held].
  rewrite !decide_False by done.
  by rewrite yields_request, app_nil_l, yields_finally.
Qed.

Lemma scan_empty_result_witness :
  let r := scan helpers_globals [] defaults empty_session in
  yields (trace r) = []
  ∧ scrolled (trace r) = []
  ∧ cleared (trace r)
    = (if clear_scroll defaults then call_naming (Some "s0") else [])
  ∧ ending r = Exhausted.
Proof.
  apply (scan_empty_result helpers_globals [] defaults empty_session
           empty_page "s0" (Ok ())); reflexivity.
Defined.

End helpers.
